(** * get-stale-packages-action: the staleness classifier and the
      two-level pagination traversal of [main.go], embedded in Rocq.

    Go strings are byte sequences; they are modelled by [string] (a sequence
    of 8-bit [ascii] values).  Integers that the program never wraps
    (instants, durations) are modelled by [Z]. *)

From Stdlib Require Import Bool List String Ascii ZArith Lia.
Import ListNotations.

Local Open Scope string_scope.

(* ================================================================== *)
(** ** Regular expressions (the fragment of Go's [regexp] used by
       [semverRegExp]) *)
(* ================================================================== *)

Module Regexp.

(** The syntax covers what the pattern of [main.go] is built from:
    literals (also escaped ones such as [\.] and [\+]), bracket classes
    and [\d], concatenation, alternation [|], and the repetitions [*],
    [+] and [?].  Groups, named ([(?P<major>...)]) or not ([(?:...)]), only
    bracket a sub-expression and have no constructor of their own. *)
Inductive regex : Type :=
| Lit (c : ascii)
| Class (ranges : list (ascii * ascii))
| Cat (r1 r2 : regex)
| Alt (r1 r2 : regex)
| Star (r : regex)
| Plus (r : regex)
| Opt (r : regex).

(** A compiled pattern: the expression, and whether it starts with [^]
    and ends with [$].  No flag is set in the pattern, so [^] is the start
    of the text and [$] its very end. *)
Record Regexp : Type := {
  anchorStart : bool;
  expr : regex;
  anchorEnd : bool
}.

Definition in_range (c : ascii) (rg : ascii * ascii) : bool :=
  (nat_of_ascii (fst rg) <=? nat_of_ascii c)%nat &&
  (nat_of_ascii c <=? nat_of_ascii (snd rg))%nat.

Definition in_class (ranges : list (ascii * ascii)) (c : ascii) : bool :=
  existsb (in_range c) ranges.

(** Residual expressions of the matcher: [regex] extended with the empty
    language, the empty word and "any byte". *)
Inductive residual : Type :=
| RNone
| REps
| RAny
| RLit (c : ascii)
| RClass (ranges : list (ascii * ascii))
| RCat (r1 r2 : residual)
| RAlt (r1 r2 : residual)
| RStar (r : residual).

Fixpoint compile (r : regex) : residual :=
  match r with
  | Lit c => RLit c
  | Class rs => RClass rs
  | Cat r1 r2 => RCat (compile r1) (compile r2)
  | Alt r1 r2 => RAlt (compile r1) (compile r2)
  | Star r => RStar (compile r)
  | Plus r => RCat (compile r) (RStar (compile r))
  | Opt r => RAlt (compile r) REps
  end.

Fixpoint nullable (r : residual) : bool :=
  match r with
  | RNone | RAny | RLit _ | RClass _ => false
  | REps | RStar _ => true
  | RCat r1 r2 => nullable r1 && nullable r2
  | RAlt r1 r2 => nullable r1 || nullable r2
  end.

Definition rcat (r1 r2 : residual) : residual :=
  match r1 with
  | RNone => RNone
  | REps => r2
  | _ => RCat r1 r2
  end.

Definition ralt (r1 r2 : residual) : residual :=
  match r1, r2 with
  | RNone, _ => r2
  | _, RNone => r1
  | _, _ => RAlt r1 r2
  end.

(** Brzozowski derivative: what remains to be matched after byte [c]. *)
Fixpoint deriv (c : ascii) (r : residual) : residual :=
  match r with
  | RNone | REps => RNone
  | RAny => REps
  | RLit d => if Ascii.eqb c d then REps else RNone
  | RClass rs => if in_class rs c then REps else RNone
  | RCat r1 r2 =>
      if nullable r1
      then ralt (rcat (deriv c r1) r2) (deriv c r2)
      else rcat (deriv c r1) r2
  | RAlt r1 r2 => ralt (deriv c r1) (deriv c r2)
  | RStar r1 => rcat (deriv c r1) (RStar r1)
  end.

Fixpoint accepts (r : residual) (s : list ascii) : bool :=
  match s with
  | [] => nullable r
  | c :: s' => accepts (deriv c r) s'
  end.

(** [re.MatchString(s)]: is there a match of the pattern somewhere in
    [s]?  A side without an anchor may skip any bytes.

    Go matches runes decoded from UTF-8 where this matcher takes bytes.
    For a pattern whose literals and classes are all ASCII, as here, the
    answer is the same: every byte of a rune outside ASCII, and every
    byte that is not valid UTF-8, is 128 or more and in no class. *)
Definition search (re : Regexp) : residual :=
  RCat (if anchorStart re then REps else RStar RAny)
       (RCat (compile (expr re))
             (if anchorEnd re then REps else RStar RAny)).

Definition MatchString (re : Regexp) (s : string) : bool :=
  accepts (search re) (list_ascii_of_string s).

(** *** Reading a pattern

    [regexp.MustCompile] for the part of the syntax above, on patterns of
    at most 1000 ASCII bytes.  [None] stands for a pattern on which the Go
    function panics, and also for a pattern that uses anything else of
    the syntax. *)

Definition isChar (c d : ascii) : bool := Ascii.eqb c d.

Definition isASCII (c : ascii) : bool := (nat_of_ascii c <? 128)%nat.

(** The bytes of a group name: letters, digits and the underscore. *)
Definition isWordChar (c : ascii) : bool :=
  in_class [("0", "9"); ("A", "Z"); ("a", "z"); ("_", "_")]%char c.

(** The inside of a bracket class, after the opening bracket: single
    bytes and ranges [lo-hi] with [lo] not above [hi]; a hyphen before the
    closing bracket stands for itself.  A class is not empty. *)
Fixpoint parseClass (s : list ascii) (acc : list (ascii * ascii))
  : option (list (ascii * ascii) * list ascii) :=
  match s with
  | [] => None
  | c :: rest =>
      if isChar c "]" then
        match acc with
        | [] => None
        | _ :: _ => Some (rev acc, rest)
        end
      else if isChar c "\" || isChar c "[" || isChar c "^" then None
      else match rest with
           | d :: hi :: rest' =>
               if isChar d "-" && negb (isChar hi "]") then
                 if isChar hi "\" || isChar hi "[" then None
                 else if (nat_of_ascii c <=? nat_of_ascii hi)%nat
                      then parseClass rest' ((c, hi) :: acc)
                      else None
               else parseClass rest ((c, c) :: acc)
           | _ => parseClass rest ((c, c) :: acc)
           end
  end.

(** The name of a group, up to the closing angle bracket: one word
    character at least. *)
Fixpoint readGroupName (s : list ascii) (acc : list ascii)
  : option (string * list ascii) :=
  match s with
  | [] => None
  | c :: rest =>
      if isChar c ">" then
        match acc with
        | [] => None
        | _ :: _ => Some (string_of_list_ascii (rev acc), rest)
        end
      else if isWordChar c then readGroupName rest (c :: acc)
      else None
  end.

(** What follows the opening parenthesis of a group: nothing, [?:], or
    [?P<name>] with a name that no group before has.  [names] are the
    names met so far. *)
Definition parseGroupHeader (s : list ascii) (names : list string)
  : option (list ascii * list string) :=
  match s with
  | q :: rest =>
      if isChar q "?" then
        match rest with
        | k :: rest' =>
            if isChar k ":" then Some (rest', names)
            else if isChar k "P" then
              match rest' with
              | lt :: more =>
                  if isChar lt "<" then
                    match readGroupName more [] with
                    | Some (name, body) =>
                        if existsb (String.eqb name) names then None
                        else Some (body, name :: names)
                    | None => None
                    end
                  else None
              | [] => None
              end
            else None
        | [] => None
        end
      else Some (s, names)
  | [] => Some (s, names)
  end.

Definition isRepetition (c : ascii) : bool :=
  isChar c "*" || isChar c "+" || isChar c "?".

(** One repetition operator after an atom; a second operator in a row (a
    lazy or a nested repetition) is not read. *)
Definition parseRepetition (r : regex) (s : list ascii)
  : option (regex * list ascii) :=
  match s with
  | op :: rest =>
      if isRepetition op then
        match rest with
        | op' :: _ => if isRepetition op' then None
                      else Some (if isChar op "*" then Star r
                                 else if isChar op "+" then Plus r
                                 else Opt r, rest)
        | [] => Some (if isChar op "*" then Star r
                      else if isChar op "+" then Plus r
                      else Opt r, rest)
        end
      else Some (r, s)
  | [] => Some (r, s)
  end.

Definition isMeta (c : ascii) : bool :=
  isChar c "(" || isChar c ")" || isChar c "[" || isChar c "]" ||
  isChar c "{" || isChar c "}" || isChar c "|" || isChar c "*" ||
  isChar c "+" || isChar c "?" || isChar c "." || isChar c "^" ||
  isChar c "$" || isChar c "\".

Definition isEscapable (c : ascii) : bool :=
  isChar c "." || isChar c "+" || isChar c "*" || isChar c "?" ||
  isChar c "(" || isChar c ")" || isChar c "[" || isChar c "]" ||
  isChar c "{" || isChar c "}" || isChar c "|" || isChar c "^" ||
  isChar c "$" || isChar c "\" || isChar c "-".

Definition endsSequence (s : list ascii) : bool :=
  match s with
  | [] => true
  | c :: _ => isChar c "|" || isChar c ")"
  end.

(** Alternatives of sequences of repeated atoms.  [fuel] bounds the depth
    of the recursion; [names] are the group names met so far. *)
Fixpoint parseAlt (fuel : nat) (s : list ascii) (names : list string)
  : option (regex * list ascii * list string) :=
  match fuel with
  | O => None
  | S fuel' =>
      match parseSeq fuel' s names with
      | Some (r1, rest, names1) =>
          match rest with
          | c :: rest' =>
              if isChar c "|" then
                match parseAlt fuel' rest' names1 with
                | Some (r2, rest'', names2) => Some (Alt r1 r2, rest'', names2)
                | None => None
                end
              else Some (r1, rest, names1)
          | [] => Some (r1, rest, names1)
          end
      | None => None
      end
  end
with parseSeq (fuel : nat) (s : list ascii) (names : list string)
  : option (regex * list ascii * list string) :=
  match fuel with
  | O => None
  | S fuel' =>
      match parseAtom fuel' s names with
      | Some (r0, rest0, names1) =>
          match parseRepetition r0 rest0 with
          | Some (r1, rest) =>
              if endsSequence rest then Some (r1, rest, names1)
              else match parseSeq fuel' rest names1 with
                   | Some (r2, rest', names2) => Some (Cat r1 r2, rest', names2)
                   | None => None
                   end
          | None => None
          end
      | None => None
      end
  end
with parseAtom (fuel : nat) (s : list ascii) (names : list string)
  : option (regex * list ascii * list string) :=
  match fuel with
  | O => None
  | S fuel' =>
      match s with
      | [] => None
      | c :: rest =>
          if isChar c "(" then
            match parseGroupHeader rest names with
            | Some (body, names1) =>
                match parseAlt fuel' body names1 with
                | Some (r, close :: rest', names2) =>
                    if isChar close ")" then Some (r, rest', names2)
                    else None
                | _ => None
                end
            | None => None
            end
          else if isChar c "[" then
            match parseClass rest [] with
            | Some (ranges, rest') => Some (Class ranges, rest', names)
            | None => None
            end
          else if isChar c "\" then
            match rest with
            | e :: rest' =>
                if isChar e "d" then
                  Some (Class [("0", "9")]%char, rest', names)
                else if isEscapable e then Some (Lit e, rest', names)
                else None
            | [] => None
            end
          else if isMeta c then None
          else Some (Lit c, rest, names)
      end
  end.

Definition isAlt (r : regex) : bool :=
  match r with Alt _ _ => true | _ => false end.

(** The anchors are read at the two ends of the pattern only, and not
    around an alternation at the top, which they would not bind as a
    whole. *)
Definition MustCompile (pattern : string) : option Regexp :=
  let s := list_ascii_of_string pattern in
  if (1000 <? List.length s)%nat || negb (forallb isASCII s) then None
  else
    let atStart := match s with c :: _ => isChar c "^" | [] => false end in
    let s := if atStart then tl s else s in
    let atEnd := match rev s with
                 | c :: b :: _ => isChar c "$" && negb (isChar b "\")
                 | [c] => isChar c "$"
                 | [] => false
                 end in
    let s := if atEnd then removelast s else s in
    match parseAlt (4 * List.length s + 4) s [] with
    | Some (r, [], _) =>
        if (atStart || atEnd) && isAlt r then None
        else Some {| anchorStart := atStart; expr := r; anchorEnd := atEnd |}
    | _ => None
    end.

(** *** The language of an expression, as a relation *)

Inductive lang : residual -> list ascii -> Prop :=
| L_eps : lang REps []
| L_any c : lang RAny [c]
| L_lit c : lang (RLit c) [c]
| L_class rs c : in_class rs c = true -> lang (RClass rs) [c]
| L_cat r1 r2 s1 s2 : lang r1 s1 -> lang r2 s2 -> lang (RCat r1 r2) (s1 ++ s2)
| L_alt_l r1 r2 s : lang r1 s -> lang (RAlt r1 r2) s
| L_alt_r r1 r2 s : lang r2 s -> lang (RAlt r1 r2) s
| L_star_nil r : lang (RStar r) []
| L_star_cons r s1 s2 :
    lang r s1 -> lang (RStar r) s2 -> lang (RStar r) (s1 ++ s2).

End Regexp.

(* ================================================================== *)
(** ** Package [time]: instants and durations *)
(* ================================================================== *)

Module time.

(** A [time.Time] is modelled by its number of nanoseconds since the Unix
    epoch, a [time.Duration] (an [int64] count of nanoseconds) by that
    count.  [Add] is exact for the instants the program meets (RFC 3339
    timestamps and the current time), so no saturation is modelled. *)
Definition Time : Type := Z.
Definition Duration : Type := Z.

Definition Nanosecond : Duration := 1%Z.
Definition Microsecond : Duration := (1000 * Nanosecond)%Z.
Definition Millisecond : Duration := (1000 * Microsecond)%Z.
Definition Second : Duration := (1000 * Millisecond)%Z.
Definition Minute : Duration := (60 * Second)%Z.
Definition Hour : Duration := (60 * Minute)%Z.

Definition Add (t : Time) (d : Duration) : Time := (t + d)%Z.
Definition Before (t u : Time) : bool := (t <? u)%Z.

End time.

(* ================================================================== *)
(** ** Package [strings] *)
(* ================================================================== *)

Module strings.

(** [strings.Split(s, sep)] for a one-byte separator: the substrings
    between the occurrences of [sep]; one more element than there are
    occurrences. *)
Fixpoint Split (s : string) (sep : ascii) : list string :=
  match s with
  | EmptyString => [EmptyString]
  | String c s' =>
      if Ascii.eqb c sep then EmptyString :: Split s' sep
      else match Split s' sep with
           | h :: t => String c h :: t
           | [] => [String c EmptyString]
           end
  end.

(** [strings.Join(elems, sep)]. *)
Fixpoint Join (elems : list string) (sep : string) : string :=
  match elems with
  | [] => ""
  | [x] => x
  | x :: rest => x ++ sep ++ Join rest sep
  end.

End strings.

(* ================================================================== *)
(** ** The constants and the tag classifier of [main.go] *)
(* ================================================================== *)

Import Regexp.

(** [packageTTL = 7 * 24 * time.Hour] *)
Definition packageTTL : time.Duration := (7 * 24 * time.Hour)%Z.

(** The pieces of [semverRegExp], in the order they occur in it. *)

(** [\d] *)
Definition anyDigit : regex := Class [("0", "9")]%char.
(** [[1-9]] *)
Definition nonZeroDigit : regex := Class [("1", "9")]%char.
(** [[a-zA-Z-]] *)
Definition letterOrHyphen : regex :=
  Class [("a", "z"); ("A", "Z"); ("-", "-")]%char.
(** [[0-9a-zA-Z-]] *)
Definition alnumOrHyphen : regex :=
  Class [("0", "9"); ("a", "z"); ("A", "Z"); ("-", "-")]%char.

(** [0|[1-9]\d*], the body of the groups major, minor and patch *)
Definition numberRe : regex :=
  Alt (Lit "0") (Cat nonZeroDigit (Star anyDigit)).

(** [0|[1-9]\d*|\d*[a-zA-Z-][0-9a-zA-Z-]*], one identifier of the group
    prerelease *)
Definition prereleaseIdentRe : regex :=
  Alt (Lit "0")
      (Alt (Cat nonZeroDigit (Star anyDigit))
           (Cat (Star anyDigit) (Cat letterOrHyphen (Star alnumOrHyphen)))).

(** the group prerelease: an identifier, then any number of [\.] and
    identifier *)
Definition prereleaseRe : regex :=
  Cat prereleaseIdentRe (Star (Cat (Lit ".") prereleaseIdentRe)).

(** the group buildmetadata: [[0-9a-zA-Z-]+], then any number of [\.]
    and [[0-9a-zA-Z-]+] *)
Definition buildmetadataRe : regex :=
  Cat (Plus alnumOrHyphen) (Star (Cat (Lit ".") (Plus alnumOrHyphen))).

(** [semverRegExp], between its [^] and its [$]. *)
Definition semverExpr : regex :=
  Cat numberRe (Cat (Lit ".")
 (Cat numberRe (Cat (Lit ".")
 (Cat numberRe
 (Cat (Opt (Cat (Lit "-") prereleaseRe))
      (Opt (Cat (Lit "+") buildmetadataRe))))))).

(** The value of the string constant [semverRegExp] (in the Go source
    every backslash below is written twice). *)
Definition semverRegExp : string :=
  "^(?P<major>0|[1-9]\d*)\.(?P<minor>0|[1-9]\d*)\.(?P<patch>0|[1-9]\d*)(?:-(?P<prerelease>" ++
  "(?:0|[1-9]\d*|\d*[a-zA-Z-][0-9a-zA-Z-]*)(?:\.(?:0|[1-9]\d*|\d*[a-zA-Z-][0-9a-zA-Z-]*))*))?(?:\+" ++
  "(?P<buildmetadata>[0-9a-zA-Z-]+(?:\.[0-9a-zA-Z-]+)*))?$".

(** [var reg = regexp.MustCompile(semverRegExp)]; that the pattern reads
    as this is [MustCompile_semverRegExp] below. *)
Definition reg : Regexp :=
  {| anchorStart := true; expr := semverExpr; anchorEnd := true |}.

(** [matchVersion] returns true if version doesn't match semver, 'latest'
    or other protected versions. *)
Definition matchVersion (version : string) : bool :=
  if MatchString reg version then false
  else if String.eqb version "docker-base-layer" then false
  else if String.eqb version "latest" then false
  else true.

(* ================================================================== *)
(** ** The data of a query response *)
(* ================================================================== *)

(** [githubv4.ID] is [interface{}]: the decoded value is a string or it is
    something else, and [node.ID.(string)] panics on the latter. *)
Inductive ID : Type :=
| IDString (s : string)
| IDOther.

(** [type PageInfo struct] *)
Record PageInfo : Type := {
  EndCursor : string;
  HasNextPage : bool
}.

(** [Files.Nodes[i]] *)
Record FileNode : Type := {
  UpdatedAt : time.Time
}.

(** [Versions.Nodes[i]]; [Files] holds [Files.Nodes]. *)
Record VersionNode : Type := {
  VersionID : ID;
  Version : string;
  Files : list FileNode
}.

(** [Packages.Nodes[i].Versions] *)
Record VersionsPage : Type := {
  VersionNodes : list VersionNode;
  VersionsPageInfo : PageInfo
}.

(** [Packages.Nodes[i]] *)
Record PackageNode : Type := {
  PackageID : ID;
  Name : string;
  Versions : VersionsPage
}.

(** [query.Repository.Packages] *)
Record PackagesPage : Type := {
  PackageNodes : list PackageNode;
  PackagesPageInfo : PageInfo
}.

(** The [query] struct after a successful [client.Query]. *)
Record Query : Type := {
  Packages : PackagesPage
}.

(** The [variables] map; a [nil] cursor is [None]. *)
Record Variables : Type := {
  repositoryOwner : string;
  repositoryName : string;
  packagesCursor : option string;
  versionsCursor : option string
}.

(* ================================================================== *)
(** ** The world the program runs in, and what a run leaves behind *)
(* ================================================================== *)

(** The environment variables, the GitHub API behind [client.Query] and the
    clock behind [time.Now].  The API answers the [n]-th call (counted from
    0) for the variables it is sent with an error text or a decoded
    response; the clock answers the [n]-th reading. *)
Record World : Type := {
  Getenv : string -> string;
  Answer : nat -> Variables -> string + Query;
  Now : nat -> time.Time
}.

(** What the program does that can be seen from outside, in order: the
    queries it sends (with the error, if the call failed), its log lines
    and the call of [githubactions.SetEnv]. *)
Inductive Event : Type :=
| EvQuery (vars : Variables) (err : option string)
| EvInspecting (id : ID) (name : string)
| EvNoFiles (id : ID) (version : string)
| EvStale (id : ID) (version : string) (updatedAt : time.Time)
| EvSkip (id : ID) (version : string) (updatedAt : time.Time)
| EvSetting (staleVersions : string)
| EvSetEnv (key value : string).

(** How the process ends: [main] returns, [githubactions.Fatalf] exits
    with the message, or a run-time panic. *)
Inductive Exit : Type :=
| Returned
| Fatal (msg : string)
| PanicIndexOutOfRange (index len : nat)
| PanicInterfaceConversion.

Record Run : Type := {
  exit : Exit;
  events : list Event
}.

(** The local state of [main] inside its loops. *)
Record State : Type := {
  variables : Variables;
  versions : list string;
  trace : list Event;
  queryCalls : nat;
  clockReads : nat
}.

Inductive Step : Type :=
| Continue (s : State)
| Stop (r : Run).

Definition emit (s : State) (e : Event) : State :=
  {| variables := variables s; versions := versions s;
     trace := trace s ++ [e];
     queryCalls := queryCalls s; clockReads := clockReads s |}.

Definition setPackagesCursor (s : State) (c : string) : State :=
  {| variables :=
       {| repositoryOwner := repositoryOwner (variables s);
          repositoryName := repositoryName (variables s);
          packagesCursor := Some c;
          versionsCursor := versionsCursor (variables s) |};
     versions := versions s; trace := trace s;
     queryCalls := queryCalls s; clockReads := clockReads s |}.

Definition setVersionsCursor (s : State) (c : string) : State :=
  {| variables :=
       {| repositoryOwner := repositoryOwner (variables s);
          repositoryName := repositoryName (variables s);
          packagesCursor := packagesCursor (variables s);
          versionsCursor := Some c |};
     versions := versions s; trace := trace s;
     queryCalls := queryCalls s; clockReads := clockReads s |}.

Definition appendVersion (s : State) (id : string) : State :=
  {| variables := variables s; versions := versions s ++ [id];
     trace := trace s;
     queryCalls := queryCalls s; clockReads := clockReads s |}.

Definition readClock (s : State) : State :=
  {| variables := variables s; versions := versions s; trace := trace s;
     queryCalls := queryCalls s; clockReads := S (clockReads s) |}.

Definition sent (s : State) (err : option string) : State :=
  {| variables := variables s; versions := versions s;
     trace := trace s ++ [EvQuery (variables s) err];
     queryCalls := S (queryCalls s); clockReads := clockReads s |}.

Definition stopWith (x : Exit) (s : State) : Step :=
  Stop {| exit := x; events := trace s |}.

(* ================================================================== *)
(** ** [main] *)
(* ================================================================== *)

(** The body of [for _, node := range pkg.Versions.Nodes] for one node
    (lines 103 to 122). *)
Definition visitVersion (w : World) (node : VersionNode) (s : State) : Step :=
  match Files node with
  | [] => Continue (emit s (EvNoFiles (VersionID node) (Version node)))
  | file :: _ =>
      let updatedAt := UpdatedAt file in
      if matchVersion (Version node) then
        let now := Now w (clockReads s) in
        let s := readClock s in
        if time.Before updatedAt (time.Add now (- packageTTL)%Z) then
          match VersionID node with
          | IDString id =>
              Continue (emit (appendVersion s id)
                             (EvStale (VersionID node) (Version node) updatedAt))
          | IDOther => stopWith PanicInterfaceConversion s
          end
        else
          Continue (emit s (EvSkip (VersionID node) (Version node) updatedAt))
      else
        Continue (emit s (EvSkip (VersionID node) (Version node) updatedAt))
  end.

(** The [range] loop over the version nodes of one page. *)
Fixpoint rangeVersions (w : World) (nodes : list VersionNode) (s : State)
  : Step :=
  match nodes with
  | [] => Continue s
  | node :: rest =>
      match visitVersion w node s with
      | Continue s' => rangeVersions w rest s'
      | Stop r => Stop r
      end
  end.

(** Lines 137 to 139. *)
Definition publish (s : State) : Run :=
  let staleVersions := strings.Join (versions s) ", " in
  {| exit := Returned;
     events := trace s ++ [EvSetting staleVersions;
                           EvSetEnv "STALE_VERSIONS" staleVersions] |}.

(** What follows the versions loop (lines 131 to 134): leave the packages
    loop, or move the packages cursor and go round again. *)
Definition afterVersionsLoop (query : Query) (s : State) : Step :=
  if negb (HasNextPage (PackagesPageInfo (Packages query)))
  then Stop (publish s)
  else Continue (setPackagesCursor s
                   (EndCursor (PackagesPageInfo (Packages query)))).

(** One turn of the versions loop (lines 89 to 128), and, when that loop
    is left by one of its two [break]s, what follows it in the packages
    loop.  Every turn starts with one call of [client.Query]. *)
Definition iteration (w : World) (s : State) : Step :=
  match Answer w (queryCalls s) (variables s) with
  | inl err =>
      stopWith (Fatal ("failed to query packages: " ++ err))
               (sent s (Some err))
  | inr query =>
      let s := sent s None in
      match PackageNodes (Packages query) with
      | [] => afterVersionsLoop query s
      | pkg :: _ =>
          let s := emit s (EvInspecting (PackageID pkg) (Name pkg)) in
          match rangeVersions w (VersionNodes (Versions pkg)) s with
          | Stop r => Stop r
          | Continue s =>
              if negb (HasNextPage (VersionsPageInfo (Versions pkg)))
              then afterVersionsLoop query s
              else Continue (setVersionsCursor s
                               (EndCursor (VersionsPageInfo (Versions pkg))))
          end
      end
  end.

(** The two nested [for] loops.  They have no bound of their own; [fuel]
    bounds the number of calls of [client.Query], and [None] means that
    the loops were still running when it was used up. *)
Fixpoint loop (fuel : nat) (w : World) (s : State) : option Run :=
  match fuel with
  | O => None
  | S fuel' =>
      match iteration w s with
      | Stop r => Some r
      | Continue s' => loop fuel' w s'
      end
  end.

Definition initialState (owner name : string) : State :=
  {| variables := {| repositoryOwner := owner; repositoryName := name;
                     packagesCursor := None; versionsCursor := None |};
     versions := [];
     trace := [];
     queryCalls := 0;
     clockReads := 0 |}.

(** [main].  The command line is taken to hold no flag, so that
    [flag.Parse] does nothing; [log.SetFlags] and [log.SetPrefix] only
    shape the log lines, which are kept here as structured events. *)
Definition main (fuel : nat) (w : World) : option Run :=
  let token := Getenv w "ROBOT_TOKEN" in
  if String.eqb token "" then
    Some {| exit := Fatal "Environment variable ROBOT_TOKEN is empty.";
            events := [] |}
  else
    let githubRepo := Getenv w "GITHUB_REPOSITORY" in
    if String.eqb githubRepo "" then
      Some {| exit := Fatal "Environment variable GITHUB_REPOSITORY is empty.";
              events := [] |}
    else
      let githubRepoSlice := strings.Split githubRepo "/" in
      match nth_error githubRepoSlice 0 with
      | None => Some {| exit := PanicIndexOutOfRange 0 (List.length githubRepoSlice);
                        events := [] |}
      | Some repositoryOwner =>
          match nth_error githubRepoSlice 1 with
          | None =>
              Some {| exit := PanicIndexOutOfRange 1 (List.length githubRepoSlice);
                      events := [] |}
          | Some repositoryName =>
              loop fuel w (initialState repositoryOwner repositoryName)
          end
      end.

(* ================================================================== *)
(** ** What is observed of a run *)
(* ================================================================== *)

(** The variables of the queries that were sent, in order. *)
Definition queriesOf (es : list Event) : list Variables :=
  flat_map (fun e => match e with EvQuery v _ => [v] | _ => [] end) es.

(** The key-value pairs handed to [githubactions.SetEnv], in order. *)
Definition published (es : list Event) : list (string * string) :=
  flat_map (fun e => match e with EvSetEnv k v => [(k, v)] | _ => [] end) es.

(** The identifiers of the versions reported by a "Stale version" line, in
    order. *)
Definition staleLogged (es : list Event) : list string :=
  flat_map (fun e => match e with
                     | EvStale (IDString id) _ _ => [id]
                     | _ => []
                     end) es.


Definition isFailedQuery (e : Event) : bool :=
  match e with EvQuery _ (Some _) => true | _ => false end.


(* ================================================================== *)
(** ** Worlds to run the program in *)
(* ================================================================== *)




(** The same world, except that call number [n] of the API fails. *)
Definition failingAt (n : nat) (err : string) (w : World) : World :=
  {| Getenv := Getenv w;
     Answer := fun k v => if Nat.eqb k n then inl err else Answer w k v;
     Now := Now w |}.

(** *** A paginating server over a fixed data set

    The packages of a repository with all the versions of each.  The
    server hands out the packages one per page, as the query asks for, and
    the versions [pageSize] per page.  A cursor is the number of elements
    before the position it stands for, written in unary; [nil] stands for
    the start. *)
Record PackageData : Type := {
  dataID : ID;
  dataName : string;
  dataVersions : list VersionNode
}.

Fixpoint cursorOf (n : nat) : string :=
  match n with
  | O => ""
  | S n' => String "c" (cursorOf n')
  end.

Definition offsetOf (cursor : option string) : nat :=
  match cursor with
  | None => 0
  | Some c => String.length c
  end.

Definition pageInfoAt {A : Type} (size after : nat) (all : list A) : PageInfo :=
  {| EndCursor := cursorOf (after + List.length (firstn size (skipn after all)));
     HasNextPage := (size <? List.length (skipn after all))%nat |}.

Definition pageAt {A : Type} (size after : nat) (all : list A) : list A :=
  firstn size (skipn after all).

Definition servePage (pageSize : nat) (data : list PackageData)
    (v : Variables) : Query :=
  let pkgAfter := offsetOf (packagesCursor v) in
  let verAfter := offsetOf (versionsCursor v) in
  {| Packages :=
       {| PackageNodes :=
            map (fun d =>
                   {| PackageID := dataID d; Name := dataName d;
                      Versions :=
                        {| VersionNodes :=
                             pageAt pageSize verAfter (dataVersions d);
                           VersionsPageInfo :=
                             pageInfoAt pageSize verAfter (dataVersions d) |} |})
                (pageAt 1 pkgAfter data);
          PackagesPageInfo := pageInfoAt 1 pkgAfter data |} |}.

Definition settings (key : string) : string :=
  if String.eqb key "ROBOT_TOKEN" then "secret"
  else if String.eqb key "GITHUB_REPOSITORY" then "percona-platform/demo"
  else "".

(** The world of a run against the paginating server, with a clock that
    stands still at [now]. *)
Definition pagedWorld (pageSize : nat) (data : list PackageData)
    (now : time.Time) : World :=
  {| Getenv := settings;
     Answer := fun _ v => inr (servePage pageSize data v);
     Now := fun _ => now |}.

Definition day : time.Duration := (24 * time.Hour)%Z.

Definition versionWithFile (id tag : string) (updatedAt : time.Time)
  : VersionNode :=
  {| VersionID := IDString id; Version := tag;
     Files := [ {| UpdatedAt := updatedAt |} ] |}.

Definition versionWithoutFiles (id tag : string) : VersionNode :=
  {| VersionID := IDString id; Version := tag; Files := [] |}.

(** *** The end-to-end scenario of the specification

    One package with three versions: one tagged [tag] with a file that is
    [age] old, [pr-7] without files, [pr-8] with a file updated 10 days
    ago.  The specification has [v1.0.0] for [tag]. *)
Definition scenarioData (tag idV1 idPr7 idPr8 : string)
    (age : time.Duration) (now : time.Time) : list PackageData :=
  [ {| dataID := IDString "P1"; dataName := "image";
       dataVersions :=
         [ versionWithFile idV1 tag (now - age)%Z;
           versionWithoutFiles idPr7 "pr-7";
           versionWithFile idPr8 "pr-8" (now - 10 * day)%Z ] |} ].

Definition scenarioWorld (tag idV1 idPr7 idPr8 : string)
    (age : time.Duration) (now : time.Time) : World :=
  pagedWorld 100 (scenarioData tag idV1 idPr7 idPr8 age now) now.

(** *** Two packages, the first with two versions

    Every version has an unprotected tag and a file last updated at
    instant 0; the runs below take place 30 days later. *)
Definition twoPackages : list PackageData :=
  [ {| dataID := IDString "PA"; dataName := "alpha";
       dataVersions := [ versionWithFile "A1" "pr-1" 0%Z;
                         versionWithFile "A2" "pr-2" 0%Z ] |};
    {| dataID := IDString "PB"; dataName := "beta";
       dataVersions := [ versionWithFile "B1" "pr-3" 0%Z ] |} ].

Definition thirtyDaysLater : time.Time := (30 * day)%Z.

(** *** An API whose first page of packages is empty but announces more *)
Definition emptyPageThenMore : World :=
  {| Getenv := settings;
     Answer := fun n _ =>
       match n with
       | O => inr {| Packages :=
                       {| PackageNodes := [];
                          PackagesPageInfo :=
                            {| EndCursor := "next"; HasNextPage := true |} |} |}
       | _ => inr {| Packages :=
                       {| PackageNodes :=
                            [ {| PackageID := IDString "PA"; Name := "alpha";
                                 Versions :=
                                   {| VersionNodes :=
                                        [ versionWithFile "A1" "pr-1" 0%Z ];
                                      VersionsPageInfo :=
                                        {| EndCursor := "";
                                           HasNextPage := false |} |} |} ];
                          PackagesPageInfo :=
                            {| EndCursor := ""; HasNextPage := false |} |} |}
       end;
     Now := fun _ => thirtyDaysLater |}.

(* ================================================================== *)
(** ** The grammar of semantic versions

    The Backus-Naur form of the Semantic Versioning specification 2.0.0,
    production by production, over the bytes of a tag.  It is stated on its
    own, without the pattern of [main.go], to compare the two. *)
(* ================================================================== *)

Module SemVer.

Definition oneOf (chars : string) (c : ascii) : Prop :=
  In c (list_ascii_of_string chars).

(** [oneOf], decided. *)
Definition memb (chars : string) (c : ascii) : bool :=
  existsb (Ascii.eqb c) (list_ascii_of_string chars).

Definition positive_digit : ascii -> Prop := oneOf "123456789".
Definition digit (c : ascii) : Prop := c = "0"%char \/ positive_digit c.
Definition letter : ascii -> Prop :=
  oneOf "ABCDEFGHIJKLMNOPQRSTUVWXYZabcdefghijklmnopqrstuvwxyz".
Definition non_digit (c : ascii) : Prop := letter c \/ c = "-"%char.
Definition identifier_character (c : ascii) : Prop := digit c \/ non_digit c.

Inductive digits : list ascii -> Prop :=
| digits_one d : digit d -> digits [d]
| digits_more d ds : digit d -> digits ds -> digits (d :: ds).

Inductive identifier_characters : list ascii -> Prop :=
| idchars_one c : identifier_character c -> identifier_characters [c]
| idchars_more c cs :
    identifier_character c -> identifier_characters cs ->
    identifier_characters (c :: cs).

Inductive numeric_identifier : list ascii -> Prop :=
| numeric_zero : numeric_identifier ["0"%char]
| numeric_positive d : positive_digit d -> numeric_identifier [d]
| numeric_positive_digits d ds :
    positive_digit d -> digits ds -> numeric_identifier (d :: ds).

Inductive alphanumeric_identifier : list ascii -> Prop :=
| alnum_n c : non_digit c -> alphanumeric_identifier [c]
| alnum_n_i c cs :
    non_digit c -> identifier_characters cs ->
    alphanumeric_identifier (c :: cs)
| alnum_i_n cs c :
    identifier_characters cs -> non_digit c ->
    alphanumeric_identifier (cs ++ [c])
| alnum_i_n_i cs c cs' :
    identifier_characters cs -> non_digit c -> identifier_characters cs' ->
    alphanumeric_identifier (cs ++ c :: cs').

Definition pre_release_identifier (s : list ascii) : Prop :=
  alphanumeric_identifier s \/ numeric_identifier s.

Definition build_identifier (s : list ascii) : Prop :=
  alphanumeric_identifier s \/ digits s.

Inductive dot_separated (P : list ascii -> Prop) : list ascii -> Prop :=
| dot_one s : P s -> dot_separated P s
| dot_more s rest :
    P s -> dot_separated P rest -> dot_separated P (s ++ "."%char :: rest).

Definition pre_release : list ascii -> Prop :=
  dot_separated pre_release_identifier.

Definition build : list ascii -> Prop :=
  dot_separated build_identifier.

Inductive version_core : list ascii -> Prop :=
| core major minor patch :
    numeric_identifier major -> numeric_identifier minor ->
    numeric_identifier patch ->
    version_core (major ++ "."%char :: minor ++ "."%char :: patch).

Inductive valid_semver : list ascii -> Prop :=
| semver_core c : version_core c -> valid_semver c
| semver_pre c p :
    version_core c -> pre_release p -> valid_semver (c ++ "-"%char :: p)
| semver_build c b :
    version_core c -> build b -> valid_semver (c ++ "+"%char :: b)
| semver_pre_build c p b :
    version_core c -> pre_release p -> build b ->
    valid_semver (c ++ "-"%char :: p ++ "+"%char :: b).

(** A tag is a semantic version when its bytes are a valid semver. *)
Definition isSemVer (tag : string) : Prop :=
  valid_semver (list_ascii_of_string tag).

End SemVer.

(** The tags the specification calls protective. *)
Definition protectedTag (tag : string) : Prop :=
  SemVer.isSemVer tag \/ tag = "latest" \/ tag = "docker-base-layer".

(* ================================================================== *)
(** ** The staleness rule, in the words of the specification *)
(* ================================================================== *)

(** Seven days, in nanoseconds. *)
Definition sevenDays : time.Duration := 604800000000000%Z.

(** [isStale(tag, mostRecentFileTimestamp, now, ttl)]: the tag is not
    protective and the timestamp is strictly older than [now - ttl]. *)
Definition isStaleSpec (tag : string)
    (mostRecentFileTimestamp now : time.Time) (ttl : time.Duration) : Prop :=
  ~ protectedTag tag /\ (mostRecentFileTimestamp < now - ttl)%Z.

(** The stale set after a step, if the program is still running. *)
Definition versionsAfter (st : Step) : option (list string) :=
  match st with
  | Continue s => Some (versions s)
  | Stop _ => None
  end.

(** The log lines and queries a step has added to those of [s]. *)
Definition eventsAfter (s : State) (st : Step) : list Event :=
  match st with
  | Continue s' => skipn (List.length (trace s)) (trace s')
  | Stop r => skipn (List.length (trace s)) (events r)
  end.

(** A world with a token and a repository identifier without "/". *)
Definition malformedRepository : World :=
  {| Getenv := fun key => if String.eqb key "ROBOT_TOKEN" then "secret"
                          else if String.eqb key "GITHUB_REPOSITORY" then "demo"
                          else "";
     Answer := fun _ v => inr (servePage 100 twoPackages v);
     Now := fun _ => thirtyDaysLater |}.

(* ================================================================== *)
(** ** What holds of the state inside the loops, and of a finished run *)
(* ================================================================== *)

Definition noFailedQuery (es : list Event) : Prop :=
  Forall (fun e => isFailedQuery e = false) es.

(** Inside the loops no query has failed, nothing has been published, and
    the stale set holds the identifiers of the "Stale version" lines. *)
Definition Inv (s : State) : Prop :=
  noFailedQuery (trace s) /\
  published (trace s) = [] /\
  versions s = staleLogged (trace s).

(** The three ways in which the loops end. *)
Inductive Outcome (r : Run) : Prop :=
| EndsInFatal base v err :
    events r = (base ++ [EvQuery v (Some err)])%list ->
    exit r = Fatal ("failed to query packages: " ++ err) ->
    noFailedQuery base -> published base = [] ->
    Outcome r
| EndsInReturn base :
    events r =
      (base ++ [EvSetting (strings.Join (staleLogged base) ", ");
                EvSetEnv "STALE_VERSIONS"
                         (strings.Join (staleLogged base) ", ")])%list ->
    exit r = Returned ->
    noFailedQuery base -> published base = [] ->
    Outcome r
| EndsInPanic :
    exit r = PanicInterfaceConversion ->
    noFailedQuery (events r) -> published (events r) = [] ->
    Outcome r.

(** How [main] ends before its loops. *)
Definition startupFailure (r : Run) : Prop :=
  events r = [] /\
  (exit r = Fatal "Environment variable ROBOT_TOKEN is empty." \/
   exit r = Fatal "Environment variable GITHUB_REPOSITORY is empty." \/
   exists i n, exit r = PanicIndexOutOfRange i n).



(** The two cursors of a query. *)
Definition cursors (v : Variables) : option string * option string :=
  (packagesCursor v, versionsCursor v).

(** The run of the scenario in which the first version is found stale
    ([firstIsStale]) or not: one query, the three versions in order, and
    the result. *)
Definition scenarioRun (tag idV1 idPr7 idPr8 : string) (age : time.Duration)
    (now : time.Time) (firstIsStale : bool) : Run :=
  let staleVersions :=
    if firstIsStale then idV1 ++ ", " ++ idPr8 else idPr8 in
  {| exit := Returned;
     events :=
       [ EvQuery {| repositoryOwner := "percona-platform";
                    repositoryName := "demo";
                    packagesCursor := None; versionsCursor := None |} None;
         EvInspecting (IDString "P1") "image";
         (if firstIsStale
          then EvStale (IDString idV1) tag (now - age)%Z
          else EvSkip (IDString idV1) tag (now - age)%Z);
         EvNoFiles (IDString idPr7) "pr-7";
         EvStale (IDString idPr8) "pr-8" (now - 10 * day)%Z;
         EvSetting staleVersions;
         EvSetEnv "STALE_VERSIONS" staleVersions ] |}.

(* ================================================================== *)
(** ** The stale set of a data set, computed without pages *)
(* ================================================================== *)

(** Is a version stale at [now]: it has a file, an unprotected tag, and
    its first file is older than [packageTTL]. *)
Definition staleAt (now : time.Time) (node : VersionNode) : bool :=
  match Files node with
  | [] => false
  | file :: _ =>
      matchVersion (Version node) &&
      time.Before (UpdatedAt file) (time.Add now (- packageTTL)%Z)
  end.

(** The identifiers of the stale versions among [nodes], in order. *)
Definition staleIdentifiers (now : time.Time) (nodes : list VersionNode)
  : list string :=
  flat_map (fun node =>
              if staleAt now node
              then match VersionID node with
                   | IDString id => [id]
                   | IDOther => []
                   end
              else []) nodes.

(** All versions of all packages, in order. *)
Definition allVersions (data : list PackageData) : list VersionNode :=
  flat_map dataVersions data.

Definition hasStringID (node : VersionNode) : Prop :=
  exists id, VersionID node = IDString id.

(** Every package but the last has all its versions on one page. *)
Fixpoint onePageButLast (pageSize : nat) (data : list PackageData) : Prop :=
  match data with
  | [] => True
  | d :: rest =>
      match rest with
      | [] => True
      | _ :: _ =>
          (List.length (dataVersions d) <= pageSize)%nat /\
          onePageButLast pageSize rest
      end
  end.

(* ================================================================== *)
(** ** More on the tags, the log lines and the responses *)
(* ================================================================== *)

(** The bytes a protected tag can be made of: [[0-9a-zA-Z-]], the dot and
    the plus sign. *)
Definition tagByte (c : ascii) : bool :=
  Regexp.in_class [("0", "9"); ("a", "z"); ("A", "Z"); ("-", "-")]%char c ||
  Ascii.eqb c "." || Ascii.eqb c "+".

(** [node] is a version node of the first package node of some response
    of the API. *)
Definition returnedVersion (w : World) (node : VersionNode) : Prop :=
  exists n v q pkg others,
    Answer w n v = inr q /\
    PackageNodes (Packages q) = pkg :: others /\
    In node (VersionNodes (Versions pkg)).

(** A "Stale version" line is borne out by the API and the clock: it is
    for a returned version with a string identifier, an unprotected tag
    and a first file older, at some reading of the clock, than seven
    days. *)
Definition staleLineJustified (w : World) (e : Event) : Prop :=
  match e with
  | EvStale id tag t =>
      exists node file rest k,
        returnedVersion w node /\
        VersionID node = id /\ (exists i, id = IDString i) /\
        Version node = tag /\
        Files node = file :: rest /\ UpdatedAt file = t /\
        ~ protectedTag tag /\
        (t < Now w k - sevenDays)%Z
  | _ => True
  end.

(** [e] is the log line of the visit of [node]. *)
Definition lineFor (e : Event) (node : VersionNode) : Prop :=
  match e with
  | EvNoFiles id tag =>
      id = VersionID node /\ tag = Version node /\ Files node = []
  | EvStale id tag t | EvSkip id tag t =>
      id = VersionID node /\ tag = Version node /\
      exists file rest, Files node = file :: rest /\ t = UpdatedAt file
  | _ => False
  end.

(** A response cut down to what the program reads of it: the first
    package node, and the first file of each of its versions. *)
Definition firstFileOnly (node : VersionNode) : VersionNode :=
  {| VersionID := VersionID node; Version := Version node;
     Files := firstn 1 (Files node) |}.

Definition firstOnly (q : Query) : Query :=
  {| Packages :=
       {| PackageNodes :=
            map (fun p =>
                   {| PackageID := PackageID p; Name := Name p;
                      Versions :=
                        {| VersionNodes :=
                             map firstFileOnly (VersionNodes (Versions p));
                           VersionsPageInfo :=
                             VersionsPageInfo (Versions p) |} |})
                (firstn 1 (PackageNodes (Packages q)));
          PackagesPageInfo := PackagesPageInfo (Packages q) |} |}.

Definition firstOnlyWorld (w : World) : World :=
  {| Getenv := Getenv w;
     Answer := fun n v => match Answer w n v with
                          | inl err => inl err
                          | inr q => inr (firstOnly q)
                          end;
     Now := Now w |}.

(** An API that answers every query with a page that announces a further
    page: of versions if there is a package node, of packages if there is
    none. *)
Definition alwaysAnotherPage (w : World) : Prop :=
  forall n v,
    exists q,
      Answer w n v = inr q /\
      match PackageNodes (Packages q) with
      | [] => HasNextPage (PackagesPageInfo (Packages q)) = true
      | pkg :: _ => HasNextPage (VersionsPageInfo (Versions pkg)) = true
      end.

(** An API whose versions, those of the first package of every page, all
    have a string for identifier. *)
Definition stringIdentifiers (w : World) : Prop :=
  forall n v q pkg others,
    Answer w n v = inr q ->
    PackageNodes (Packages q) = pkg :: others ->
    Forall hasStringID (VersionNodes (Versions pkg)).

(** Such an API: the same page of one package without versions, again and
    again. *)
Definition stuckServer : World :=
  {| Getenv := settings;
     Answer := fun _ _ =>
       inr {| Packages :=
                {| PackageNodes :=
                     [ {| PackageID := IDString "PA"; Name := "alpha";
                          Versions :=
                            {| VersionNodes := [];
                               VersionsPageInfo :=
                                 {| EndCursor := "same";
                                    HasNextPage := true |} |} |} ];
                   PackagesPageInfo :=
                     {| EndCursor := ""; HasNextPage := false |} |} |};
     Now := fun _ => thirtyDaysLater |}.

(** Such an API whose page holds a stale version with an identifier that
    is not a string. *)
Definition stuckServerOtherID : World :=
  {| Getenv := settings;
     Answer := fun _ _ =>
       inr {| Packages :=
                {| PackageNodes :=
                     [ {| PackageID := IDString "PA"; Name := "alpha";
                          Versions :=
                            {| VersionNodes :=
                                 [ versionWithFile "A1" "pr-1" 0%Z;
                                   {| VersionID := IDOther; Version := "pr-2";
                                      Files := [ {| UpdatedAt := 0%Z |} ] |} ];
                               VersionsPageInfo :=
                                 {| EndCursor := "same";
                                    HasNextPage := true |} |} |} ];
                   PackagesPageInfo :=
                     {| EndCursor := ""; HasNextPage := false |} |} |};
     Now := fun _ => thirtyDaysLater |}.

(** *** The states of the loops

    The states in which a turn of the loops starts: the one [main] enters
    the loops with, and the one every turn that goes on leaves. *)
Inductive Reachable (w : World) : State -> Prop :=
| reach_start owner name : Reachable w (initialState owner name)
| reach_turn s s' :
    Reachable w s -> iteration w s = Continue s' -> Reachable w s'.

(** [s] is a state in which the two loops are left for line 137: that of
    a turn whose query was answered, after the versions of the page were
    visited, when the page announces no further page of packages and has
    no package node, or no further page of versions either. *)
Definition leavesLoops (w : World) (s : State) : Prop :=
  exists s0 query,
    Reachable w s0 /\
    Answer w (queryCalls s0) (variables s0) = inr query /\
    HasNextPage (PackagesPageInfo (Packages query)) = false /\
    match PackageNodes (Packages query) with
    | [] => s = sent s0 None
    | pkg :: _ =>
        HasNextPage (VersionsPageInfo (Versions pkg)) = false /\
        rangeVersions w (VersionNodes (Versions pkg))
          (emit (sent s0 None) (EvInspecting (PackageID pkg) (Name pkg)))
        = Continue s
    end.

(** *** The published value, in the words of the specification

    The identifiers, with a comma and a space between one and the next;
    the empty string for no identifier.  It is written without
    [strings.Join], to compare the two. *)
Fixpoint afterFirst (ids : list string) : string :=
  match ids with
  | [] => ""
  | id :: rest => ", " ++ id ++ afterFirst rest
  end.

Definition commaSpaceSeparated (ids : list string) : string :=
  match ids with
  | [] => ""
  | id :: rest => id ++ afterFirst rest
  end.

(** *** Two packages, the last with two versions

    The packages of [twoPackages] in the other order: with a page of one
    version the first package is on one page and the last on two. *)
Definition smallThenLarge : list PackageData :=
  [ {| dataID := IDString "PB"; dataName := "beta";
       dataVersions := [ versionWithFile "B1" "pr-3" 0%Z ] |};
    {| dataID := IDString "PA"; dataName := "alpha";
       dataVersions := [ versionWithFile "A1" "pr-1" 0%Z;
                         versionWithFile "A2" "pr-2" 0%Z ] |} ].

(** *** What the run reaches on the paginating server

    The versions offset at which the pagination of a package with [len]
    versions, entered at offset [k], sends its last query: the cursor
    moves on by a page as long as more than a page is left. *)
Fixpoint finalOffset (fuel pageSize k len : nat) : nat :=
  match fuel with
  | O => k
  | S fuel' =>
      if (pageSize <? len - k)%nat
      then finalOffset fuel' pageSize (k + pageSize) len
      else k
  end.

(** The versions that come up on the pages of a run that enters the first
    package of [data] at versions offset [k]: of every package, those from
    the offset on at which the package before was left. *)
Fixpoint visitedVersions (pageSize k : nat) (data : list PackageData)
  : list VersionNode :=
  match data with
  | [] => []
  | d :: rest =>
      (skipn k (dataVersions d) ++
       visitedVersions pageSize
         (finalOffset (List.length (dataVersions d)) pageSize k
                      (List.length (dataVersions d)))
         rest)%list
  end.

(* ================================================================== *)
(** ** Package [net/http] and [PackagePreview] *)
(* ================================================================== *)

Module http.

(** The entries of a [map[string][]string]. *)
Definition Entries : Type := list (string * list string).

(** [m[key]]: [nil] for a key that is not there. *)
Fixpoint lookup (m : Entries) (key : string) : list string :=
  match m with
  | [] => []
  | (k, vs) :: rest => if String.eqb k key then vs else lookup rest key
  end.

(** [m[key] = vs] *)
Fixpoint store (m : Entries) (key : string) (vs : list string) : Entries :=
  match m with
  | [] => [(key, vs)]
  | (k, old) :: rest =>
      if String.eqb k key then (k, vs) :: rest
      else (k, old) :: store rest key vs
  end.

(** [http.Header]; [None] is the [nil] map. *)
Definition Header : Type := option Entries.

(** [h[key]], which is [nil] also on a [nil] map. *)
Definition Values (h : Header) (key : string) : list string :=
  match h with
  | None => []
  | Some m => lookup m key
  end.

(** [h.Add(key, value)], for a key in canonical form such as [Accept]:
    [h[key] = append(h[key], value)].  Assigning to an entry of a [nil]
    map panics: [None]. *)
Definition Add (h : Header) (key value : string) : option Header :=
  match h with
  | None => None
  | Some m => Some (Some (store m key (lookup m key ++ [value])%list))
  end.

(** A [*http.Request]: its header, and all its other fields. *)
Record Request (Other : Type) : Type := {
  RequestHeader : Header;
  RequestOther : Other
}.

(** What a call of a [RoundTripper] comes to: the response and error it
    returns, or a panic. *)
Inductive Result (Response : Type) : Type :=
| Returns (resp : option Response) (err : option string)
| Panics.

End http.

Arguments http.RequestHeader {Other} _.
Arguments http.RequestOther {Other} _.
Arguments http.Build_Request {Other} _ _.
Arguments http.Returns {Response} _ _.
Arguments http.Panics {Response}.

(** [func (pp *PackagePreview) RoundTrip(req)]; [T] is [pp.T.RoundTrip],
    which is handed the request as [Header.Add] has left it. *)
Definition RoundTrip {Other Response : Type}
    (T : http.Request Other -> http.Result Response)
    (req : http.Request Other) : http.Result Response :=
  match http.Add (http.RequestHeader req) "Accept"
                 "application/vnd.github.packages-preview+json" with
  | None => http.Panics
  | Some h =>
      T {| http.RequestHeader := h;
           http.RequestOther := http.RequestOther req |}
  end.

(** [n] values of [PackagePreview], each the [T] of the one around it,
    around [T]. *)
Fixpoint previewLayers {Other Response : Type} (n : nat)
    (T : http.Request Other -> http.Result Response)
  : http.Request Other -> http.Result Response :=
  match n with
  | O => T
  | S n' => RoundTrip (previewLayers n' T)
  end.

(* ================================================================== *)
(** * Properties *)
(* ================================================================== *)

(** ** The matcher decides the language of the expression *)

Module RegexpFacts.
Import Regexp.

Create HintDb re.
#[local] Hint Constructors lang : re.

Lemma lang_cat_inv r1 r2 s :
  lang (RCat r1 r2) s ->
  exists s1 s2, s = (s1 ++ s2)%list /\ lang r1 s1 /\ lang r2 s2.
Proof.
  intros H; inversion H; subst; eauto.
Qed.

Lemma lang_alt_inv r1 r2 s :
  lang (RAlt r1 r2) s -> lang r1 s \/ lang r2 s.
Proof.
  intros H; inversion H; subst; auto.
Qed.

Lemma lang_eps_inv s : lang REps s -> s = [].
Proof.
  intros H; inversion H; reflexivity.
Qed.

Lemma lang_none_inv s : ~ lang RNone s.
Proof.
  intros H; inversion H.
Qed.

Lemma lang_lit_inv c s : lang (RLit c) s -> s = [c].
Proof.
  intros H; inversion H; reflexivity.
Qed.

Lemma lang_class_inv rs s :
  lang (RClass rs) s -> exists c, s = [c] /\ in_class rs c = true.
Proof.
  intros H; inversion H; subst; eauto.
Qed.

Lemma nullable_lang r : nullable r = true <-> lang r [].
Proof.
  induction r; simpl; split; intros H;
    try discriminate; try solve [inversion H]; auto with re.
  - apply andb_true_iff in H as [H1 H2].
    change (@nil ascii) with (@nil ascii ++ [])%list.
    constructor; [apply IHr1 | apply IHr2]; assumption.
  - apply lang_cat_inv in H as (s1 & s2 & E & H1 & H2).
    symmetry in E. apply app_eq_nil in E as [-> ->].
    apply andb_true_iff; split; [apply IHr1 | apply IHr2]; assumption.
  - apply orb_true_iff in H as [H | H];
      [apply L_alt_l, IHr1 | apply L_alt_r, IHr2]; assumption.
  - apply orb_true_iff.
    apply lang_alt_inv in H as [H | H];
      [left; apply IHr1 | right; apply IHr2]; assumption.
Qed.

Lemma lang_rcat r1 r2 s : lang (rcat r1 r2) s <-> lang (RCat r1 r2) s.
Proof.
  destruct r1; simpl; try tauto; split; intros H.
  - inversion H.
  - apply lang_cat_inv in H as (s1 & s2 & _ & H1 & _). inversion H1.
  - change s with ([] ++ s)%list. auto with re.
  - apply lang_cat_inv in H as (s1 & s2 & -> & H1 & H2).
    apply lang_eps_inv in H1 as ->. exact H2.
Qed.

Lemma lang_ralt r1 r2 s : lang (ralt r1 r2) s <-> lang (RAlt r1 r2) s.
Proof.
  split; intros H.
  - destruct r1, r2; simpl in H; auto with re; inversion H.
  - apply lang_alt_inv in H as [H | H];
      destruct r1, r2; simpl; auto with re; inversion H.
Qed.

Lemma lang_star_cons_inv r c s :
  lang (RStar r) (c :: s) ->
  exists s1 s2, s = (s1 ++ s2)%list /\ lang r (c :: s1) /\ lang (RStar r) s2.
Proof.
  intros H. remember (RStar r) as r' eqn:Er. remember (c :: s) as t eqn:Et.
  revert c s Et.
  induction H; intros c' s' Et; try discriminate.
  injection Er as ->.
  destruct s1 as [|a s1].
  - simpl in Et. apply IHlang2; auto.
  - simpl in Et. injection Et as -> <-. eauto.
Qed.

Lemma deriv_lang c r s : lang (deriv c r) s <-> lang r (c :: s).
Proof.
  revert s. induction r; intros s; simpl.
  - split; intros H; inversion H.
  - split; intros H; inversion H.
  - split; intros H.
    + apply lang_eps_inv in H as ->. constructor.
    + inversion H. constructor.
  - destruct (Ascii.eqb_spec c c0) as [-> | Hne]; split; intros H.
    + apply lang_eps_inv in H as ->. constructor.
    + inversion H. constructor.
    + inversion H.
    + inversion H; subst. contradiction.
  - destruct (in_class ranges c) eqn:Hc; split; intros H.
    + apply lang_eps_inv in H as ->. constructor; assumption.
    + inversion H. constructor.
    + inversion H.
    + inversion H; subst. congruence.
  - destruct (nullable r1) eqn:Hn.
    + rewrite lang_ralt. split; intros H.
      * apply lang_alt_inv in H as [H | H].
        -- apply lang_rcat, lang_cat_inv in H as (s1 & s2 & -> & H1 & H2).
           change (c :: s1 ++ s2)%list with ((c :: s1) ++ s2)%list.
           constructor; [apply IHr1 |]; assumption.
        -- change (c :: s) with ([] ++ c :: s)%list.
           constructor; [apply nullable_lang | apply IHr2]; assumption.
      * apply lang_cat_inv in H as (s1 & s2 & E & H1 & H2).
        destruct s1 as [|a s1]; simpl in E.
        -- subst s2. apply L_alt_r, IHr2. assumption.
        -- injection E as <- ->. apply L_alt_l, lang_rcat.
           constructor; [apply IHr1 |]; assumption.
    + rewrite lang_rcat. split; intros H.
      * apply lang_cat_inv in H as (s1 & s2 & -> & H1 & H2).
        change (c :: s1 ++ s2)%list with ((c :: s1) ++ s2)%list.
        constructor; [apply IHr1 |]; assumption.
      * apply lang_cat_inv in H as (s1 & s2 & E & H1 & H2).
        destruct s1 as [|a s1]; simpl in E.
        -- apply nullable_lang in H1. congruence.
        -- injection E as <- ->.
           constructor; [apply IHr1 |]; assumption.
  - rewrite lang_ralt. split; intros H.
    + apply lang_alt_inv in H as [H | H];
        [apply L_alt_l, IHr1 | apply L_alt_r, IHr2]; assumption.
    + apply lang_alt_inv in H as [H | H];
        [apply L_alt_l, IHr1 | apply L_alt_r, IHr2]; assumption.
  - rewrite lang_rcat. split; intros H.
    + apply lang_cat_inv in H as (s1 & s2 & -> & H1 & H2).
      change (c :: s1 ++ s2)%list with ((c :: s1) ++ s2)%list.
      constructor; [apply IHr |]; assumption.
    + apply lang_star_cons_inv in H as (s1 & s2 & -> & H1 & H2).
      constructor; [apply IHr |]; assumption.
Qed.

Lemma accepts_lang r s : accepts r s = true <-> lang r s.
Proof.
  revert r. induction s as [|c s IH]; intros r; simpl.
  - apply nullable_lang.
  - rewrite IH. apply deriv_lang.
Qed.

End RegexpFacts.

(** ** The pattern of [main.go] and the grammar of semantic versions *)

Module SemVerFacts.
Import Regexp RegexpFacts SemVer.
Local Open Scope list_scope.

Lemma memb_oneOf chars c : memb chars c = true <-> oneOf chars c.
Proof.
  unfold memb, oneOf. rewrite existsb_exists. split.
  - intros (x & Hin & Heq). apply Ascii.eqb_eq in Heq. subst; assumption.
  - intros Hin. exists c. split; [assumption | apply Ascii.eqb_refl].
Qed.

Ltac every_byte c :=
  destruct c as [[] [] [] [] [] [] [] []]; reflexivity.

Lemma class_19 c :
  in_class [("1", "9")]%char c = memb "123456789" c.
Proof. every_byte c. Qed.

Lemma class_09 c :
  in_class [("0", "9")]%char c = memb "0123456789" c.
Proof. every_byte c. Qed.

Lemma class_letter_hyphen c :
  in_class [("a", "z"); ("A", "Z"); ("-", "-")]%char c =
  memb "ABCDEFGHIJKLMNOPQRSTUVWXYZabcdefghijklmnopqrstuvwxyz-" c.
Proof. every_byte c. Qed.

Lemma class_alnum_hyphen c :
  in_class [("0", "9"); ("a", "z"); ("A", "Z"); ("-", "-")]%char c =
  memb "0123456789ABCDEFGHIJKLMNOPQRSTUVWXYZabcdefghijklmnopqrstuvwxyz-" c.
Proof. every_byte c. Qed.

Lemma memb_cons a chars c :
  memb (String a chars) c = Ascii.eqb c a || memb chars c.
Proof. reflexivity. Qed.

Lemma memb_app chars1 chars2 c :
  memb (chars1 ++ chars2)%string c = memb chars1 c || memb chars2 c.
Proof.
  induction chars1 as [|a chars1 IH]; simpl; [reflexivity |].
  rewrite !memb_cons, IH. apply orb_assoc.
Qed.

Lemma positive_digit_class c :
  in_class [("1", "9")]%char c = true <-> positive_digit c.
Proof. rewrite class_19. apply memb_oneOf. Qed.

Lemma digit_class c :
  in_class [("0", "9")]%char c = true <-> digit c.
Proof.
  rewrite class_09. unfold digit, positive_digit.
  rewrite <- memb_oneOf, memb_cons, orb_true_iff, Ascii.eqb_eq. tauto.
Qed.

Lemma non_digit_class c :
  in_class [("a", "z"); ("A", "Z"); ("-", "-")]%char c = true <->
  non_digit c.
Proof.
  rewrite class_letter_hyphen. unfold non_digit, letter.
  change "ABCDEFGHIJKLMNOPQRSTUVWXYZabcdefghijklmnopqrstuvwxyz-"%string
    with ("ABCDEFGHIJKLMNOPQRSTUVWXYZabcdefghijklmnopqrstuvwxyz" ++ "-")%string.
  rewrite memb_app, orb_true_iff, memb_oneOf.
  unfold memb; simpl. rewrite orb_false_r, Ascii.eqb_eq. tauto.
Qed.

Lemma identifier_character_class c :
  in_class [("0", "9"); ("a", "z"); ("A", "Z"); ("-", "-")]%char c = true <->
  identifier_character c.
Proof.
  unfold identifier_character.
  rewrite <- digit_class, <- non_digit_class.
  rewrite class_alnum_hyphen, class_09, class_letter_hyphen.
  change "0123456789ABCDEFGHIJKLMNOPQRSTUVWXYZabcdefghijklmnopqrstuvwxyz-"%string
    with ("0123456789" ++
          "ABCDEFGHIJKLMNOPQRSTUVWXYZabcdefghijklmnopqrstuvwxyz-")%string.
  rewrite memb_app, orb_true_iff. tauto.
Qed.

Lemma digit_or_non_digit c :
  identifier_character c -> ~ non_digit c -> digit c.
Proof. unfold identifier_character. tauto. Qed.

Lemma non_digit_dec c : {non_digit c} + {~ non_digit c}.
Proof.
  destruct (in_class [("a", "z"); ("A", "Z"); ("-", "-")]%char c) eqn:E.
  - left. apply non_digit_class. assumption.
  - right. intros H. apply non_digit_class in H. congruence.
Qed.


Lemma lang_star_induction r (Q : list ascii -> Prop) :
  Q [] ->
  (forall s1 s2, lang r s1 -> lang (RStar r) s2 -> Q s2 -> Q (s1 ++ s2)) ->
  forall s, lang (RStar r) s -> Q s.
Proof.
  intros Hnil Hcons s H. remember (RStar r) as r' eqn:Er.
  induction H; try discriminate.
  - assumption.
  - injection Er as ->. apply Hcons; auto.
Qed.

Lemma star_class rs s :
  lang (RStar (RClass rs)) s <-> Forall (fun c => in_class rs c = true) s.
Proof.
  split.
  - apply lang_star_induction.
    + constructor.
    + intros s1 s2 H1 _ IH. apply lang_class_inv in H1 as (c & -> & Hc).
      constructor; assumption.
  - induction 1 as [|c s Hc _ IH].
    + constructor.
    + change (c :: s) with ([c] ++ s). constructor; [constructor |]; assumption.
Qed.

Lemma digits_iff s : digits s <-> s <> [] /\ Forall digit s.
Proof.
  split.
  - induction 1 as [d Hd | d ds Hd _ [_ IH]].
    + split; [discriminate | constructor; [assumption | constructor]].
    + split; [discriminate | constructor; assumption].
  - intros [Hne Hall]. induction Hall as [|d ds Hd Hall IH].
    + contradiction.
    + destruct ds as [|d' ds'].
      * constructor; assumption.
      * apply digits_more; [assumption | apply IH; discriminate].
Qed.

Lemma identifier_characters_iff s :
  identifier_characters s <-> s <> [] /\ Forall identifier_character s.
Proof.
  split.
  - induction 1 as [d Hd | d ds Hd _ [_ IH]].
    + split; [discriminate | constructor; [assumption | constructor]].
    + split; [discriminate | constructor; assumption].
  - intros [Hne Hall]. induction Hall as [|d ds Hd Hall IH].
    + contradiction.
    + destruct ds as [|d' ds'].
      * constructor; assumption.
      * apply idchars_more; [assumption | apply IH; discriminate].
Qed.

Lemma Forall_iff_local {A} (P Q : A -> Prop) l :
  (forall x, P x <-> Q x) -> Forall P l <-> Forall Q l.
Proof.
  intros H. split; apply Forall_impl; intros x; apply H.
Qed.

Lemma star_digit s :
  lang (RStar (compile anyDigit)) s <-> Forall digit s.
Proof.
  simpl. rewrite star_class. apply Forall_iff_local. intros c. apply digit_class.
Qed.

Lemma star_alnum s :
  lang (RStar (compile alnumOrHyphen)) s <-> Forall identifier_character s.
Proof.
  simpl. rewrite star_class. apply Forall_iff_local.
  intros c. apply identifier_character_class.
Qed.

Lemma positive_is_digit d : positive_digit d -> digit d.
Proof. intros H; right; exact H. Qed.

Lemma digit_is_identifier_character d : digit d -> identifier_character d.
Proof. intros H; left; exact H. Qed.

Lemma numberRe_numeric s :
  lang (compile numberRe) s <-> numeric_identifier s.
Proof.
  simpl. split.
  - intros H. apply lang_alt_inv in H as [H | H].
    + apply lang_lit_inv in H as ->. constructor.
    + apply lang_cat_inv in H as (s1 & ds & -> & H1 & H2).
      apply lang_class_inv in H1 as (d & -> & Hd).
      apply positive_digit_class in Hd.
      apply (star_digit ds) in H2.
      destruct ds as [|d' ds'].
      * apply numeric_positive; assumption.
      * apply numeric_positive_digits; [assumption |].
        apply digits_iff. split; [discriminate | assumption].
  - intros H. destruct H as [| d Hd | d ds Hd Hds].
    + apply L_alt_l. constructor.
    + apply L_alt_r. change [d] with ([d] ++ []).
      constructor; [| constructor].
      constructor. apply positive_digit_class; assumption.
    + apply L_alt_r. change (d :: ds) with ([d] ++ ds).
      constructor.
      * constructor. apply positive_digit_class; assumption.
      * apply (star_digit ds). apply digits_iff in Hds. tauto.
Qed.

(** An alphanumeric identifier is a word of identifier characters with a
    non-digit among them. *)
Lemma alphanumeric_iff s :
  alphanumeric_identifier s <->
  Forall identifier_character s /\ Exists non_digit s.
Proof.
  split.
  - intros H. destruct H as [c Hc | c cs Hc Hcs | cs c Hcs Hc | cs c cs' Hcs Hc Hcs'];
      repeat match goal with
             | H : identifier_characters _ |- _ =>
                 apply identifier_characters_iff in H as [_ H]
             end.
    + split; [constructor; [right; assumption | constructor] | left; assumption].
    + split; [constructor; [right |]; assumption | left; assumption].
    + split.
      * apply Forall_app; split; [assumption |].
        constructor; [right; assumption | constructor].
      * apply Exists_app; right; left; assumption.
    + split.
      * apply Forall_app; split; [assumption |].
        constructor; [right |]; assumption.
      * apply Exists_app; right; left; assumption.
  - intros [Hall Hex]. induction Hex as [c cs Hc | c cs Hex IH].
    + apply Forall_cons_iff in Hall as [_ Hall]. destruct cs as [|c' cs'].
      * apply alnum_n; assumption.
      * apply alnum_n_i; [assumption |].
        apply identifier_characters_iff. split; [discriminate | assumption].
    + apply Forall_cons_iff in Hall as [Hc Hall].
      specialize (IH Hall).
      assert (Hone : identifier_characters [c]) by (constructor; assumption).
      destruct IH as [n Hn | n ns Hn Hns | ns n Hns Hn | ns n ns' Hns Hn Hns'].
      * apply (alnum_i_n [c] n); assumption.
      * apply (alnum_i_n_i [c] n ns); assumption.
      * apply (alnum_i_n (c :: ns) n); [| assumption].
        apply idchars_more; assumption.
      * apply (alnum_i_n_i (c :: ns) n ns'); try assumption.
        apply idchars_more; assumption.
Qed.

(** A word with a non-digit splits at its first non-digit. *)
Lemma first_non_digit s :
  Forall identifier_character s -> Exists non_digit s ->
  exists ds c rest,
    s = ds ++ c :: rest /\ Forall digit ds /\ non_digit c /\
    Forall identifier_character rest.
Proof.
  intros Hall Hex. induction Hall as [|a s Ha Hall IH].
  - inversion Hex.
  - destruct (non_digit_dec a) as [Hn | Hn].
    + exists [], a, s. repeat split; auto.
    + assert (Hex' : Exists non_digit s).
      { inversion Hex; subst; [contradiction | assumption]. }
      destruct (IH Hex') as (ds & c & rest & -> & Hds & Hc & Hrest).
      exists (a :: ds), c, rest. repeat split; auto.
      constructor; [apply digit_or_non_digit |]; assumption.
Qed.

Lemma alnumRe_alphanumeric s :
  lang (compile (Cat (Star anyDigit)
                     (Cat letterOrHyphen (Star alnumOrHyphen)))) s <->
  alphanumeric_identifier s.
Proof.
  rewrite alphanumeric_iff.
  change (compile (Cat (Star anyDigit)
                       (Cat letterOrHyphen (Star alnumOrHyphen))))
    with (RCat (RStar (compile anyDigit))
               (RCat (compile letterOrHyphen) (RStar (compile alnumOrHyphen)))).
  split.
  - intros H. apply lang_cat_inv in H as (ds & t & -> & Hds & H).
    apply lang_cat_inv in H as (c1 & rest & -> & Hc & Hrest).
    apply star_digit in Hds. apply star_alnum in Hrest.
    apply lang_class_inv in Hc as (c & -> & Hc).
    apply non_digit_class in Hc. split.
    + apply Forall_app; split.
      * revert Hds. apply Forall_impl. apply digit_is_identifier_character.
      * constructor; [right |]; assumption.
    + apply Exists_app; right; left; assumption.
  - intros [Hall Hex].
    destruct (first_non_digit s Hall Hex) as (ds & c & rest & -> & Hds & Hc & Hr).
    constructor; [apply star_digit; assumption |].
    change (c :: rest) with ([c] ++ rest).
    constructor; [| apply star_alnum; assumption].
    constructor. apply non_digit_class; assumption.
Qed.

Lemma prereleaseIdentRe_identifier s :
  lang (compile prereleaseIdentRe) s <-> pre_release_identifier s.
Proof.
  unfold pre_release_identifier.
  rewrite <- numberRe_numeric, <- alnumRe_alphanumeric.
  unfold prereleaseIdentRe, numberRe.
  cbn [compile]. split; intros H.
  - apply lang_alt_inv in H as [H | H];
      [right; apply L_alt_l; assumption |].
    apply lang_alt_inv in H as [H | H];
      [right; apply L_alt_r | left]; assumption.
  - destruct H as [H | H].
    + apply L_alt_r, L_alt_r; assumption.
    + apply lang_alt_inv in H as [H | H];
        [apply L_alt_l | apply L_alt_r, L_alt_l]; assumption.
Qed.

Lemma plus_alnum_build_identifier s :
  lang (compile (Plus alnumOrHyphen)) s <-> build_identifier s.
Proof.
  unfold build_identifier.
  rewrite alphanumeric_iff, digits_iff.
  change (compile (Plus alnumOrHyphen))
    with (RCat (compile alnumOrHyphen) (RStar (compile alnumOrHyphen))).
  split.
  - intros H. apply lang_cat_inv in H as (s1 & rest & -> & Hc & Hrest).
    apply star_alnum in Hrest. simpl in Hc.
    apply lang_class_inv in Hc as (c & -> & Hc).
    apply identifier_character_class in Hc.
    assert (Hall : Forall identifier_character ([c] ++ rest))
      by (constructor; assumption).
    assert (Hne : [c] ++ rest <> []) by discriminate.
    clear Hc Hrest. revert Hne Hall. generalize ([c] ++ rest).
    intros l Hne Hall.
    destruct (Exists_dec non_digit l non_digit_dec) as [Hex | Hnex].
    + left; split; assumption.
    + right. split; [assumption |].
      apply Forall_Exists_neg in Hnex.
      apply Forall_forall. intros x Hx.
      apply digit_or_non_digit.
      * rewrite Forall_forall in Hall; auto.
      * rewrite Forall_forall in Hnex; auto.
  - intros H.
    assert (Hs : s <> [] /\ Forall identifier_character s).
    { destruct H as [[Hall Hex] | [Hne Hall]].
      - split; [| assumption]. intros ->. inversion Hex.
      - split; [assumption |]. revert Hall. apply Forall_impl.
        apply digit_is_identifier_character. }
    destruct Hs as [Hne Hall]. destruct Hall as [|c rest Hc Hrest].
    + contradiction.
    + change (c :: rest) with ([c] ++ rest).
      constructor; [| apply star_alnum; assumption].
      simpl. constructor. apply identifier_character_class; assumption.
Qed.

Lemma dotted r (P : list ascii -> Prop) :
  (forall s, lang r s <-> P s) ->
  forall s,
    lang (RCat r (RStar (RCat (RLit ".") r))) s <-> dot_separated P s.
Proof.
  intros HP s. split.
  - intros H. apply lang_cat_inv in H as (s1 & s2 & -> & H1 & H2).
    apply HP in H1. revert s1 H1.
    apply (lang_star_induction (RCat (RLit ".") r)
             (fun s2 => forall s1, P s1 -> dot_separated P (s1 ++ s2)));
      [| | exact H2].
    + intros s1 H1. rewrite app_nil_r. apply dot_one; assumption.
    + intros t1 t2 Ht1 _ IH s1 H1.
      apply lang_cat_inv in Ht1 as (d & x & -> & Hd & Hx).
      apply lang_lit_inv in Hd as ->. apply HP in Hx.
      rewrite <- app_assoc. simpl.
      apply dot_more; [assumption | apply IH; assumption].
  - induction 1 as [s Hs | s rest Hs _ IH].
    + rewrite <- (app_nil_r s). constructor; [apply HP; assumption |].
      constructor.
    + apply lang_cat_inv in IH as (x & st & -> & Hx & Hst).
      constructor; [apply HP; assumption |].
      change ("."%char :: x ++ st) with (("."%char :: x) ++ st).
      constructor; [| assumption].
      change ("."%char :: x) with (["."%char] ++ x).
      constructor; [constructor | assumption].
Qed.

Lemma prereleaseRe_pre_release s :
  lang (compile prereleaseRe) s <-> pre_release s.
Proof.
  apply (dotted (compile prereleaseIdentRe)).
  apply prereleaseIdentRe_identifier.
Qed.

Lemma buildmetadataRe_build s :
  lang (compile buildmetadataRe) s <-> build s.
Proof.
  apply (dotted (compile (Plus alnumOrHyphen))).
  apply plus_alnum_build_identifier.
Qed.

Lemma core_then a b c t :
  a ++ ["."%char] ++ b ++ ["."%char] ++ c ++ t =
  (a ++ "."%char :: b ++ "."%char :: c) ++ t.
Proof.
  simpl. rewrite <- app_assoc. simpl. rewrite <- app_assoc. reflexivity.
Qed.

(** The language of [semverExpr] is the grammar's [valid_semver]. *)
Lemma semverExpr_valid_semver s :
  lang (compile semverExpr) s <-> valid_semver s.
Proof.
  change (compile semverExpr) with
    (RCat (compile numberRe) (RCat (RLit ".")
    (RCat (compile numberRe) (RCat (RLit ".")
    (RCat (compile numberRe)
    (RCat (RAlt (RCat (RLit "-") (compile prereleaseRe)) REps)
          (RAlt (RCat (RLit "+") (compile buildmetadataRe)) REps))))))).
  split.
  - intros H.
    apply lang_cat_inv in H as (a & t & -> & Ha & H).
    apply lang_cat_inv in H as (d1 & t1 & -> & Hd1 & H).
    apply lang_cat_inv in H as (b & t2 & -> & Hb & H).
    apply lang_cat_inv in H as (d2 & t3 & -> & Hd2 & H).
    apply lang_cat_inv in H as (c & t4 & -> & Hc & H).
    apply lang_cat_inv in H as (o1 & o2 & -> & Ho1 & Ho2).
    apply lang_lit_inv in Hd1 as ->. apply lang_lit_inv in Hd2 as ->.
    apply numberRe_numeric in Ha, Hb, Hc.
    rewrite core_then.
    assert (Hcore : version_core (a ++ "."%char :: b ++ "."%char :: c))
      by (constructor; assumption).
    apply lang_alt_inv in Ho1 as [Ho1 | Ho1];
      apply lang_alt_inv in Ho2 as [Ho2 | Ho2].
    + apply lang_cat_inv in Ho1 as (h & p & -> & Hh & Hp).
      apply lang_cat_inv in Ho2 as (h' & m & -> & Hh' & Hm).
      apply lang_lit_inv in Hh as ->. apply lang_lit_inv in Hh' as ->.
      apply prereleaseRe_pre_release in Hp.
      apply buildmetadataRe_build in Hm.
      simpl. apply semver_pre_build; assumption.
    + apply lang_cat_inv in Ho1 as (h & p & -> & Hh & Hp).
      apply lang_lit_inv in Hh as ->. apply lang_eps_inv in Ho2 as ->.
      apply prereleaseRe_pre_release in Hp.
      rewrite app_nil_r. simpl. apply semver_pre; assumption.
    + apply lang_cat_inv in Ho2 as (h' & m & -> & Hh' & Hm).
      apply lang_lit_inv in Hh' as ->. apply lang_eps_inv in Ho1 as ->.
      apply buildmetadataRe_build in Hm.
      simpl. apply semver_build; assumption.
    + apply lang_eps_inv in Ho1 as ->. apply lang_eps_inv in Ho2 as ->.
      simpl. rewrite app_nil_r. apply semver_core; assumption.
  - assert (Hcore : forall c t o1 o2,
               version_core c -> t = o1 ++ o2 ->
               lang (RAlt (RCat (RLit "-") (compile prereleaseRe)) REps) o1 ->
               lang (RAlt (RCat (RLit "+") (compile buildmetadataRe)) REps) o2 ->
               lang (RCat (compile numberRe) (RCat (RLit ".")
                    (RCat (compile numberRe) (RCat (RLit ".")
                    (RCat (compile numberRe)
                    (RCat (RAlt (RCat (RLit "-") (compile prereleaseRe)) REps)
                          (RAlt (RCat (RLit "+") (compile buildmetadataRe))
                                REps)))))))
                    (c ++ t)).
    { intros c t o1 o2 Hc -> Ho1 Ho2.
      destruct Hc as [major minor patch Hmaj Hmin Hpat].
      rewrite <- core_then.
      apply numberRe_numeric in Hmaj, Hmin, Hpat.
      repeat (constructor; try assumption). }
    intros H. destruct H as [c Hc | c p Hc Hp | c b Hc Hb | c p b Hc Hp Hb].
    + rewrite <- (app_nil_r c).
      apply (Hcore c [] [] []); auto; apply L_alt_r; constructor.
    + apply prereleaseRe_pre_release in Hp.
      apply (Hcore c _ ("-"%char :: p) []); auto.
      * rewrite app_nil_r; reflexivity.
      * apply L_alt_l. change ("-"%char :: p) with (["-"%char] ++ p).
        constructor; [constructor | assumption].
      * apply L_alt_r; constructor.
    + apply buildmetadataRe_build in Hb.
      apply (Hcore c _ [] ("+"%char :: b)); auto.
      * apply L_alt_r; constructor.
      * apply L_alt_l. change ("+"%char :: b) with (["+"%char] ++ b).
        constructor; [constructor | assumption].
    + apply prereleaseRe_pre_release in Hp.
      apply buildmetadataRe_build in Hb.
      apply (Hcore c _ ("-"%char :: p) ("+"%char :: b)); auto.
      * apply L_alt_l. change ("-"%char :: p) with (["-"%char] ++ p).
        constructor; [constructor | assumption].
      * apply L_alt_l. change ("+"%char :: b) with (["+"%char] ++ b).
        constructor; [constructor | assumption].
Qed.

(** [reg.MatchString] holds of the semantic versions and of nothing
    else. *)
Lemma MatchString_reg tag :
  MatchString reg tag = true <-> isSemVer tag.
Proof.
  unfold MatchString, isSemVer, search, reg; simpl anchorStart;
    simpl anchorEnd; simpl expr.
  rewrite accepts_lang, <- semverExpr_valid_semver.
  split; intros H.
  - apply lang_cat_inv in H as (e1 & t & -> & He1 & H).
    apply lang_cat_inv in H as (u & e2 & -> & Hu & He2).
    apply lang_eps_inv in He1 as ->. apply lang_eps_inv in He2 as ->.
    simpl. rewrite app_nil_r. assumption.
  - rewrite <- (app_nil_r (list_ascii_of_string tag)).
    change (list_ascii_of_string tag ++ [])
      with ([] ++ list_ascii_of_string tag ++ []).
    repeat constructor. assumption.
Qed.

End SemVerFacts.

(** ** The tag classifier *)

Import SemVerFacts.

(** The pattern in the source reads as [reg]. *)
Lemma MustCompile_semverRegExp :
  Regexp.MustCompile semverRegExp = Some reg.
Proof. reflexivity. Qed.

Lemma matchVersion_false_iff tag :
  matchVersion tag = false <-> protectedTag tag.
Proof.
  unfold matchVersion, protectedTag.
  destruct (MatchString reg tag) eqn:Hre.
  - apply MatchString_reg in Hre. tauto.
  - assert (Hno : ~ SemVer.isSemVer tag).
    { intros H. apply MatchString_reg in H. congruence. }
    destruct (String.eqb_spec tag "docker-base-layer") as [-> | Hd].
    + tauto.
    + destruct (String.eqb_spec tag "latest") as [-> | Hl].
      * tauto.
      * split; [discriminate | tauto].
Qed.

Lemma matchVersion_true_iff tag :
  matchVersion tag = true <-> ~ protectedTag tag.
Proof.
  rewrite <- matchVersion_false_iff.
  destruct (matchVersion tag); split; congruence.
Qed.

Lemma visitVersion_unprotected w node file rest s :
  Files node = file :: rest ->
  matchVersion (Version node) = true ->
  visitVersion w node s =
    if time.Before (UpdatedAt file)
                   (time.Add (Now w (clockReads s)) (- packageTTL)%Z)
    then match VersionID node with
         | IDString id =>
             Continue (emit (appendVersion (readClock s) id)
                            (EvStale (VersionID node) (Version node)
                                     (UpdatedAt file)))
         | IDOther => stopWith PanicInterfaceConversion (readClock s)
         end
    else Continue (emit (readClock s)
                        (EvSkip (VersionID node) (Version node)
                                (UpdatedAt file))).
Proof.
  intros Hf Hm. unfold visitVersion. rewrite Hf, Hm. reflexivity.
Qed.

Lemma visitVersion_protected w node file rest s :
  Files node = file :: rest ->
  matchVersion (Version node) = false ->
  visitVersion w node s =
    Continue (emit s (EvSkip (VersionID node) (Version node)
                             (UpdatedAt file))).
Proof.
  intros Hf Hm. unfold visitVersion. rewrite Hf, Hm. reflexivity.
Qed.

(** C1: [matchVersion] answers false (protected) exactly for the tags that
    are a valid semantic version, or [latest], or [docker-base-layer];
    for every other tag, the empty one included, it answers true, and the
    version goes on to the comparison of its file's timestamp with the
    current time less [packageTTL]. *)
Theorem matchVersion_protects_exactly_the_listed_tags :
  (forall tag, matchVersion tag = false <-> protectedTag tag) /\
  (forall tag, matchVersion tag = true <-> ~ protectedTag tag) /\
  matchVersion "" = true /\
  (forall w node file rest s,
      Files node = file :: rest ->
      ~ protectedTag (Version node) ->
      visitVersion w node s =
        if time.Before (UpdatedAt file)
                       (time.Add (Now w (clockReads s)) (- packageTTL)%Z)
        then match VersionID node with
             | IDString id =>
                 Continue (emit (appendVersion (readClock s) id)
                                (EvStale (VersionID node) (Version node)
                                         (UpdatedAt file)))
             | IDOther => stopWith PanicInterfaceConversion (readClock s)
             end
        else Continue (emit (readClock s)
                            (EvSkip (VersionID node) (Version node)
                                    (UpdatedAt file)))).
Proof.
  split; [exact matchVersion_false_iff |].
  split; [exact matchVersion_true_iff |].
  split; [reflexivity |].
  intros w node file rest s Hf Hp.
  apply visitVersion_unprotected with (rest := rest); [assumption |].
  apply matchVersion_true_iff; assumption.
Qed.

(** The tags named in the specification's list of testable properties,
    and a few more. *)
Example matchVersion_on_sample_tags :
  List.map matchVersion
    ["1.2.3"; "1.2.3-beta.1"; "1.2.3+build.5"; "latest"; "docker-base-layer";
     "pr-42"; ""; "v1.0.0"; "01.2.3"; "1.2"; "1.2.3-01"; "1.2.3-0a";
     "Latest"; "1.2.3 "] =
    [false; false; false; false; false;
     true; true; true; true; true; true; false;
     true; true].
Proof. reflexivity. Qed.

Lemma matchVersion_protects_exactly_the_listed_tags_witness :
  ~ protectedTag "pr-42" /\
  visitVersion (pagedWorld 1 [] thirtyDaysLater)
               (versionWithFile "X" "pr-42" 0%Z)
               (initialState "owner" "name") =
    Continue (emit (appendVersion (readClock (initialState "owner" "name")) "X")
                   (EvStale (IDString "X") "pr-42" 0%Z)).
Proof.
  destruct matchVersion_protects_exactly_the_listed_tags
    as (_ & Htrue & _ & Hage).
  assert (Hp : ~ protectedTag "pr-42") by (apply Htrue; reflexivity).
  split; [exact Hp |].
  rewrite (Hage (pagedWorld 1 [] thirtyDaysLater)
                (versionWithFile "X" "pr-42" 0%Z)
                {| UpdatedAt := 0%Z |} [] (initialState "owner" "name")
                eq_refl Hp).
  reflexivity.
Defined.

(** ** The staleness decision *)

Lemma packageTTL_sevenDays : packageTTL = sevenDays.
Proof. reflexivity. Qed.

Lemma Before_Add_packageTTL t now :
  time.Before t (time.Add now (- packageTTL)%Z) = true <->
  (t < now - sevenDays)%Z.
Proof.
  rewrite packageTTL_sevenDays. unfold time.Before, time.Add.
  rewrite Z.ltb_lt. lia.
Qed.

Lemma skipn_length_app {A} (l l' : list A) :
  skipn (List.length l) (l ++ l') = l'.
Proof.
  induction l as [|a l IH]; simpl; auto.
Qed.

Lemma app_one_neq {A} (l : list A) (x : A) : (l ++ [x])%list <> l.
Proof.
  intros H. apply (f_equal (@List.length A)) in H.
  rewrite length_app in H. simpl in H. lia.
Qed.

(** What [visitVersion] does with a version that has a file and a string
    identifier, by the two cases of the specification's rule. *)
Lemma visitVersion_by_rule w node file rest id s :
  Files node = file :: rest -> VersionID node = IDString id ->
  (isStaleSpec (Version node) (UpdatedAt file)
               (Now w (clockReads s)) sevenDays /\
   visitVersion w node s =
     Continue (emit (appendVersion (readClock s) id)
                    (EvStale (IDString id) (Version node) (UpdatedAt file))))
  \/
  (~ isStaleSpec (Version node) (UpdatedAt file)
                 (Now w (clockReads s)) sevenDays /\
   exists s0, (s0 = s \/ s0 = readClock s) /\
     visitVersion w node s =
       Continue (emit s0 (EvSkip (IDString id) (Version node)
                                 (UpdatedAt file)))).
Proof.
  intros Hf Hid. unfold isStaleSpec.
  destruct (matchVersion (Version node)) eqn:Hm.
  - rewrite (visitVersion_unprotected w node file rest s Hf Hm), Hid.
    apply matchVersion_true_iff in Hm.
    destruct (time.Before _ _) eqn:Hb.
    + apply Before_Add_packageTTL in Hb. left. tauto.
    + right. split.
      * intros [_ Hlt]. apply Before_Add_packageTTL in Hlt. congruence.
      * exists (readClock s). auto.
  - rewrite (visitVersion_protected w node file rest s Hf Hm), Hid.
    apply matchVersion_false_iff in Hm.
    right. split; [tauto |]. exists s. auto.
Qed.

(** C2: a version with a file is classified stale (its identifier is
    appended to the stale set and the "Stale version" line is logged)
    exactly when its tag is not protective and the file's timestamp is
    strictly before the current time less seven days; otherwise it is
    retained.  For an unprotected tag, a timestamp one second before
    [now - 7 days] gives stale, one second after it gives retained, and
    [now - 7 days] itself gives retained. *)
Theorem stale_iff_unprotected_and_strictly_older_than_ttl :
  forall w node file rest id s,
    Files node = file :: rest -> VersionID node = IDString id ->
    let now := Now w (clockReads s) in
    let tag := Version node in
    let t := UpdatedAt file in
    let after := visitVersion w node s in
    (versionsAfter after = Some (versions s ++ [id])%list <->
       isStaleSpec tag t now sevenDays) /\
    (versionsAfter after = Some (versions s) <->
       ~ isStaleSpec tag t now sevenDays) /\
    (eventsAfter s after = [EvStale (IDString id) tag t] <->
       isStaleSpec tag t now sevenDays) /\
    (eventsAfter s after = [EvSkip (IDString id) tag t] <->
       ~ isStaleSpec tag t now sevenDays) /\
    (~ protectedTag tag -> t = (now - sevenDays - time.Second)%Z ->
       versionsAfter after = Some (versions s ++ [id])%list) /\
    (~ protectedTag tag -> t = (now - sevenDays + time.Second)%Z ->
       versionsAfter after = Some (versions s)) /\
    (~ protectedTag tag -> t = (now - sevenDays)%Z ->
       versionsAfter after = Some (versions s)).
Proof.
  intros w node file rest id s Hf Hid now tag t after.
  assert (Hcases :
    (isStaleSpec tag t now sevenDays /\
     versionsAfter after = Some (versions s ++ [id])%list /\
     eventsAfter s after = [EvStale (IDString id) tag t]) \/
    (~ isStaleSpec tag t now sevenDays /\
     versionsAfter after = Some (versions s) /\
     eventsAfter s after = [EvSkip (IDString id) tag t])).
  { destruct (visitVersion_by_rule w node file rest id s Hf Hid)
      as [[Hst Hv] | [Hst (s0 & Hs0 & Hv)]]; subst after; rewrite Hv.
    - left. split; [exact Hst |]. split; [reflexivity |].
      simpl. apply skipn_length_app.
    - right. split; [exact Hst |].
      destruct Hs0 as [-> | ->]; (split; [reflexivity |]);
        simpl; apply skipn_length_app. }
  assert (Hsec : time.Second = 1000000000%Z) by reflexivity.
  unfold isStaleSpec in *.
  destruct Hcases as [(Hst & Hv & He) | (Hst & Hv & He)]; rewrite Hv, He.
  - split; [tauto |].
    split.
    { split; [| tauto]. intros H. injection H as H.
      apply app_one_neq in H. contradiction. }
    split; [tauto |].
    split; [split; [discriminate | tauto] |].
    split; [reflexivity |].
    split; intros _ Ht; exfalso; lia.
  - split.
    { split; [| tauto]. intros H. injection H as H. symmetry in H.
      apply app_one_neq in H. contradiction. }
    split; [tauto |].
    split; [split; [discriminate | tauto] |].
    split; [tauto |].
    split; [| split; reflexivity].
    intros Hp Ht. exfalso. apply Hst. split; [assumption | lia].
Qed.

Lemma stale_iff_unprotected_and_strictly_older_than_ttl_witness :
  versionsAfter
    (visitVersion (pagedWorld 1 [] thirtyDaysLater)
                  (versionWithFile "X" "pr-42" 0%Z)
                  (initialState "owner" "name")) = Some ["X"].
Proof.
  destruct (stale_iff_unprotected_and_strictly_older_than_ttl
              (pagedWorld 1 [] thirtyDaysLater)
              (versionWithFile "X" "pr-42" 0%Z)
              {| UpdatedAt := 0%Z |} [] "X" (initialState "owner" "name")
              eq_refl eq_refl) as (Hstale & _).
  apply Hstale. split.
  - apply matchVersion_true_iff. reflexivity.
  - reflexivity.
Defined.

(** ** Start-up: the token and the repository identifier *)

Lemma Split_without_separator s sep :
  ~ In sep (list_ascii_of_string s) -> strings.Split s sep = [s].
Proof.
  induction s as [|c s IH]; simpl; intros Hno; [reflexivity |].
  destruct (Ascii.eqb_spec c sep) as [-> | Hne].
  - exfalso. apply Hno. left; reflexivity.
  - rewrite IH; [reflexivity |]. intros Hin. apply Hno. right; assumption.
Qed.

(** [githubRepoSlice[0]] is always there. *)
Lemma Split_not_empty s sep : strings.Split s sep <> [].
Proof.
  destruct s as [|c s]; simpl; [discriminate |].
  destruct (Ascii.eqb c sep); [discriminate |].
  destruct (strings.Split s sep); discriminate.
Qed.

Lemma eqb_empty_false s : s <> "" -> String.eqb s "" = false.
Proof.
  intros H. apply String.eqb_neq. assumption.
Qed.

(** C9: with a token, a repository identifier that is not empty and holds
    no "/" makes [githubRepoSlice[1]] an access at index 1 of a slice of
    length 1: the process panics, having sent no query and published
    nothing.  Without the token, or without the identifier, the process
    ends in [Fatalf] with the message for the missing variable, again
    before any query or output. *)
Theorem startup_errors_precede_all_work :
  forall fuel w,
    (Getenv w "ROBOT_TOKEN" <> "" ->
     Getenv w "GITHUB_REPOSITORY" <> "" ->
     ~ In "/"%char (list_ascii_of_string (Getenv w "GITHUB_REPOSITORY")) ->
     main fuel w = Some {| exit := PanicIndexOutOfRange 1 1; events := [] |})
    /\
    (Getenv w "ROBOT_TOKEN" = "" ->
     main fuel w =
       Some {| exit := Fatal "Environment variable ROBOT_TOKEN is empty.";
               events := [] |})
    /\
    (Getenv w "ROBOT_TOKEN" <> "" ->
     Getenv w "GITHUB_REPOSITORY" = "" ->
     main fuel w =
       Some {| exit := Fatal "Environment variable GITHUB_REPOSITORY is empty.";
               events := [] |})
    /\
    (Getenv w "ROBOT_TOKEN" = "" \/ Getenv w "GITHUB_REPOSITORY" = "" ->
     exists msg, main fuel w = Some {| exit := Fatal msg; events := [] |})
    /\
    (Getenv w "ROBOT_TOKEN" = "" \/ Getenv w "GITHUB_REPOSITORY" = "" \/
     ~ In "/"%char (list_ascii_of_string (Getenv w "GITHUB_REPOSITORY")) ->
     exists r, main fuel w = Some r /\ exit r <> Returned /\
               queriesOf (events r) = [] /\ published (events r) = []).
Proof.
  intros fuel w.
  assert (Hpanic :
    Getenv w "ROBOT_TOKEN" <> "" ->
    Getenv w "GITHUB_REPOSITORY" <> "" ->
    ~ In "/"%char (list_ascii_of_string (Getenv w "GITHUB_REPOSITORY")) ->
    main fuel w = Some {| exit := PanicIndexOutOfRange 1 1; events := [] |}).
  { intros Ht Hr Hno. unfold main.
    rewrite (eqb_empty_false _ Ht), (eqb_empty_false _ Hr).
    rewrite (Split_without_separator _ _ Hno). reflexivity. }
  assert (Htoken :
    Getenv w "ROBOT_TOKEN" = "" ->
    main fuel w =
      Some {| exit := Fatal "Environment variable ROBOT_TOKEN is empty.";
              events := [] |}).
  { intros Ht. unfold main. rewrite Ht. reflexivity. }
  assert (Hrepo :
    Getenv w "ROBOT_TOKEN" <> "" ->
    Getenv w "GITHUB_REPOSITORY" = "" ->
    main fuel w =
      Some {| exit := Fatal "Environment variable GITHUB_REPOSITORY is empty.";
              events := [] |}).
  { intros Ht Hr. unfold main.
    rewrite (eqb_empty_false _ Ht), Hr. reflexivity. }
  split; [assumption |]. split; [assumption |]. split; [assumption |].
  split.
  { intros H.
    destruct (String.eqb_spec (Getenv w "ROBOT_TOKEN") "") as [Ht | Ht].
    - rewrite (Htoken Ht). eexists; reflexivity.
    - destruct H as [H | H]; [contradiction |].
      rewrite (Hrepo Ht H). eexists; reflexivity. }
  intros H.
  destruct (String.eqb_spec (Getenv w "ROBOT_TOKEN") "") as [Ht | Ht].
  { rewrite (Htoken Ht). eexists; split; [reflexivity |].
    repeat split; discriminate. }
  destruct (String.eqb_spec (Getenv w "GITHUB_REPOSITORY") "") as [Hr | Hr].
  { rewrite (Hrepo Ht Hr). eexists; split; [reflexivity |].
    repeat split; discriminate. }
  destruct H as [H | [H | H]]; try contradiction.
  rewrite (Hpanic Ht Hr H). eexists; split; [reflexivity |].
  repeat split; discriminate.
Qed.

Lemma startup_errors_precede_all_work_witness :
  main 5 malformedRepository =
    Some {| exit := PanicIndexOutOfRange 1 1; events := [] |}.
Proof.
  destruct (startup_errors_precede_all_work 5 malformedRepository)
    as (Hpanic & _).
  apply Hpanic.
  - simpl. discriminate.
  - simpl. discriminate.
  - simpl. intuition discriminate.
Defined.

(** ** The shape of every run *)

Lemma noFailedQuery_app es es' :
  noFailedQuery (es ++ es') <-> noFailedQuery es /\ noFailedQuery es'.
Proof. apply Forall_app. Qed.

Lemma published_app es es' :
  published (es ++ es') = (published es ++ published es')%list.
Proof. apply flat_map_app. Qed.

Lemma staleLogged_app es es' :
  staleLogged (es ++ es') = (staleLogged es ++ staleLogged es')%list.
Proof. apply flat_map_app. Qed.

Lemma queriesOf_app es es' :
  queriesOf (es ++ es') = (queriesOf es ++ queriesOf es')%list.
Proof. apply flat_map_app. Qed.

Lemma Inv_emit s e :
  Inv s -> isFailedQuery e = false -> published [e] = [] ->
  staleLogged [e] = [] -> Inv (emit s e).
Proof.
  intros (Hq & Hp & Hv) He Hpe Hse. unfold Inv; simpl.
  rewrite noFailedQuery_app, published_app, staleLogged_app, Hp, Hpe, Hse, Hv.
  rewrite ?app_nil_r. repeat split; auto. constructor; [assumption | constructor].
Qed.

Lemma Inv_readClock s : Inv s -> Inv (readClock s).
Proof. intros H; exact H. Qed.

Lemma Inv_setVersionsCursor s c : Inv s -> Inv (setVersionsCursor s c).
Proof. intros H; exact H. Qed.

Lemma Inv_setPackagesCursor s c : Inv s -> Inv (setPackagesCursor s c).
Proof. intros H; exact H. Qed.

Lemma Inv_stale s id tag t :
  Inv s -> Inv (emit (appendVersion s id) (EvStale (IDString id) tag t)).
Proof.
  intros (Hq & Hp & Hv). unfold Inv; simpl.
  rewrite noFailedQuery_app, published_app, staleLogged_app, Hp, Hv.
  repeat split; auto. repeat constructor.
Qed.

Lemma Inv_sent s : Inv s -> Inv (sent s None).
Proof.
  intros (Hq & Hp & Hv). unfold Inv; simpl.
  rewrite noFailedQuery_app, published_app, staleLogged_app, Hp, Hv.
  rewrite ?app_nil_r. repeat split; auto. repeat constructor.
Qed.

Lemma Inv_initialState owner name : Inv (initialState owner name).
Proof. repeat split. constructor. Qed.

Lemma visitVersion_Inv w node s :
  Inv s ->
  match visitVersion w node s with
  | Continue s' => Inv s'
  | Stop r => Outcome r
  end.
Proof.
  intros HI. unfold visitVersion.
  destruct (Files node) as [|file rest].
  { apply Inv_emit; auto. }
  destruct (matchVersion (Version node)).
  - destruct (time.Before _ _).
    + destruct (VersionID node) as [id |].
      * apply Inv_stale, Inv_readClock; assumption.
      * destruct HI as (Hq & Hp & _).
        apply EndsInPanic; simpl; auto.
    + apply Inv_emit; auto.
  - apply Inv_emit; auto.
Qed.

Lemma rangeVersions_Inv w nodes s :
  Inv s ->
  match rangeVersions w nodes s with
  | Continue s' => Inv s'
  | Stop r => Outcome r
  end.
Proof.
  revert s. induction nodes as [|node rest IH]; intros s HI; simpl.
  - assumption.
  - pose proof (visitVersion_Inv w node s HI) as Hv.
    destruct (visitVersion w node s) as [s' | r]; [apply IH |]; assumption.
Qed.

Lemma publish_Outcome s : Inv s -> Outcome (publish s).
Proof.
  intros (Hq & Hp & Hv). apply EndsInReturn with (base := trace s); auto.
  unfold publish. rewrite Hv. reflexivity.
Qed.

Lemma afterVersionsLoop_Inv query s :
  Inv s ->
  match afterVersionsLoop query s with
  | Continue s' => Inv s'
  | Stop r => Outcome r
  end.
Proof.
  intros HI. unfold afterVersionsLoop.
  destruct (negb _).
  - apply publish_Outcome; assumption.
  - apply Inv_setPackagesCursor; assumption.
Qed.

Lemma iteration_Inv w s :
  Inv s ->
  match iteration w s with
  | Continue s' => Inv s'
  | Stop r => Outcome r
  end.
Proof.
  intros HI. unfold iteration.
  destruct (Answer w (queryCalls s) (variables s)) as [err | query].
  - destruct HI as (Hq & Hp & _).
    apply EndsInFatal with (base := trace s) (v := variables s) (err := err);
      auto.
  - destruct (PackageNodes (Packages query)) as [|pkg others].
    + apply afterVersionsLoop_Inv, Inv_sent; assumption.
    + match goal with
      | |- context [rangeVersions w ?ns ?s0] =>
          pose proof (rangeVersions_Inv w ns s0) as Hr;
          destruct (rangeVersions w ns s0) as [s' | r]
      end.
      * assert (HI' : Inv s') by (apply Hr, Inv_emit; auto using Inv_sent).
        destruct (negb _).
        -- apply afterVersionsLoop_Inv; assumption.
        -- apply Inv_setVersionsCursor; assumption.
      * apply Hr, Inv_emit; auto using Inv_sent.
Qed.

Lemma loop_Outcome fuel w s r :
  Inv s -> loop fuel w s = Some r -> Outcome r.
Proof.
  revert s. induction fuel as [|fuel IH]; intros s HI H; simpl in H.
  - discriminate.
  - pose proof (iteration_Inv w s HI) as Hit.
    destruct (iteration w s) as [s' | r'].
    + eapply IH; eassumption.
    + injection H as <-. assumption.
Qed.

(** A run of [main] fails at start-up, with nothing done, or is a run of
    the loops from the initial state. *)
Lemma main_cases fuel w r :
  main fuel w = Some r ->
  startupFailure r \/
  exists owner name, loop fuel w (initialState owner name) = Some r.
Proof.
  unfold main, startupFailure.
  destruct (String.eqb (Getenv w "ROBOT_TOKEN") "").
  { intros H; injection H as <-. left. simpl. auto. }
  destruct (String.eqb (Getenv w "GITHUB_REPOSITORY") "").
  { intros H; injection H as <-. left. simpl. auto. }
  destruct (nth_error _ 0) as [owner |].
  2: { intros H; injection H as <-. left. simpl.
       split; [reflexivity | right; right; eauto]. }
  destruct (nth_error _ 1) as [name |].
  2: { intros H; injection H as <-. left. simpl.
       split; [reflexivity | right; right; eauto]. }
  intros H. right. eauto.
Qed.

Lemma main_Outcome fuel w r :
  main fuel w = Some r -> startupFailure r \/ Outcome r.
Proof.
  intros H. apply main_cases in H as [H | (owner & name & H)]; [auto |].
  right. eapply loop_Outcome; [apply Inv_initialState | eassumption].
Qed.

(** ** A failed query *)

Lemma failed_query_not_in base v err :
  noFailedQuery base -> ~ In (EvQuery v (Some err)) base.
Proof.
  intros Hq Hin. unfold noFailedQuery in Hq. rewrite Forall_forall in Hq.
  specialize (Hq _ Hin). discriminate.
Qed.

Lemma iteration_failed w s err :
  Answer w (queryCalls s) (variables s) = inl err ->
  iteration w s =
    Stop {| exit := Fatal ("failed to query packages: " ++ err);
            events := (trace s ++ [EvQuery (variables s) (Some err)])%list |}.
Proof.
  intros H. unfold iteration. rewrite H. reflexivity.
Qed.

(** C6: a run in which a query failed ended in [Fatalf] with that error,
    the failed query is the last thing the program did (no retry, no
    further query), and [STALE_VERSIONS] was not published, whatever had
    been found stale before.  At whatever step of the pagination the API
    answers with an error, the run ends right there in that way. *)
Theorem failed_query_is_fatal_and_publishes_nothing :
  forall fuel w,
    (forall r v err,
        main fuel w = Some r ->
        In (EvQuery v (Some err)) (events r) ->
        exit r = Fatal ("failed to query packages: " ++ err) /\
        published (events r) = [] /\
        exists base,
          events r = (base ++ [EvQuery v (Some err)])%list /\
          noFailedQuery base)
    /\
    (forall s err,
        Answer w (queryCalls s) (variables s) = inl err ->
        loop (S fuel) w s =
          Some {| exit := Fatal ("failed to query packages: " ++ err);
                  events :=
                    (trace s ++ [EvQuery (variables s) (Some err)])%list |}).
Proof.
  intros fuel w. split.
  - intros r v err Hrun Hin.
    apply main_Outcome in Hrun as [[Hnil _] | Hout].
    { rewrite Hnil in Hin. contradiction. }
    destruct Hout as [base v' err' Hev Hex Hq Hp | base Hev Hex Hq Hp
                     | Hex Hq Hp].
    + rewrite Hev in Hin. apply in_app_or in Hin as [Hin | [Heq | []]].
      * exfalso. exact (failed_query_not_in _ _ _ Hq Hin).
      * injection Heq as -> ->. split; [assumption |].
        split; [rewrite Hev, published_app, Hp; reflexivity |].
        exists base. auto.
    + exfalso. rewrite Hev in Hin.
      apply in_app_or in Hin as [Hin | [Heq | [Heq | []]]];
        try discriminate.
      exact (failed_query_not_in _ _ _ Hq Hin).
    + exfalso. exact (failed_query_not_in _ _ _ Hq Hin).
  - intros s err H. simpl. rewrite (iteration_failed w s err H). reflexivity.
Qed.

Lemma failed_query_is_fatal_and_publishes_nothing_witness :
  exists r,
    main 5 (failingAt 1 "boom" (pagedWorld 1 twoPackages thirtyDaysLater))
      = Some r /\
    staleLogged (events r) = ["A1"] /\
    exit r = Fatal "failed to query packages: boom" /\
    published (events r) = [].
Proof.
  eexists. split; [vm_compute; reflexivity |].
  split; [reflexivity |].
  destruct (failed_query_is_fatal_and_publishes_nothing 5
              (failingAt 1 "boom" (pagedWorld 1 twoPackages thirtyDaysLater)))
    as (Hrun & _).
  edestruct Hrun as (Hexit & Hpub & _).
  - vm_compute. reflexivity.
  - simpl. do 3 right. left. reflexivity.
  - split; [exact Hexit | exact Hpub].
Defined.

(** ** What one turn of the loops adds to the trace and does to the
       variables *)

Lemma visitVersion_extends w node s :
  exists es,
    match visitVersion w node s with
    | Continue s' =>
        trace s' = (trace s ++ es)%list /\ variables s' = variables s /\
        queryCalls s' = queryCalls s /\ queriesOf es = []
    | Stop r => events r = (trace s ++ es)%list /\ queriesOf es = []
    end.
Proof.
  unfold visitVersion.
  destruct (Files node) as [|file rest].
  { eexists [_]. simpl. auto. }
  destruct (matchVersion (Version node)).
  - destruct (time.Before _ _).
    + destruct (VersionID node) as [id |].
      * eexists [_]. simpl. auto.
      * exists []. simpl. rewrite app_nil_r. auto.
    + eexists [_]. simpl. auto.
  - eexists [_]. simpl. auto.
Qed.

Lemma rangeVersions_extends w nodes s :
  exists es,
    match rangeVersions w nodes s with
    | Continue s' =>
        trace s' = (trace s ++ es)%list /\ variables s' = variables s /\
        queryCalls s' = queryCalls s /\ queriesOf es = []
    | Stop r => events r = (trace s ++ es)%list /\ queriesOf es = []
    end.
Proof.
  revert s. induction nodes as [|node rest IH]; intros s; simpl.
  - exists []. rewrite app_nil_r. auto.
  - destruct (visitVersion_extends w node s) as (es & Hv).
    destruct (visitVersion w node s) as [s' | r].
    + destruct Hv as (Ht & Hvars & Hq & Hes).
      destruct (IH s') as (es' & Hr).
      exists (es ++ es')%list.
      destruct (rangeVersions w rest s') as [s'' | r].
      * destruct Hr as (Ht' & Hvars' & Hq' & Hes').
        rewrite Ht', Ht, Hvars', Hvars, Hq', Hq, queriesOf_app, Hes, Hes'.
        rewrite app_assoc. auto.
      * destruct Hr as (Ht' & Hes').
        rewrite Ht', Ht, queriesOf_app, Hes, Hes'.
        rewrite app_assoc. auto.
    + exists es. assumption.
Qed.

(** Every turn starts with the query for the current variables, and sends
    no other. *)
Lemma iteration_extends w s :
  exists err es,
    match iteration w s with
    | Continue s' =>
        trace s' = (trace s ++ EvQuery (variables s) err :: es)%list
    | Stop r =>
        events r = (trace s ++ EvQuery (variables s) err :: es)%list
    end /\ queriesOf es = [].
Proof.
  unfold iteration.
  destruct (Answer w (queryCalls s) (variables s)) as [err | query].
  { exists (Some err), []. simpl. auto. }
  exists None.
  destruct (PackageNodes (Packages query)) as [|pkg others].
  - unfold afterVersionsLoop. destruct (negb _).
    + eexists [_; _]. simpl.
      split; [rewrite <- app_assoc; reflexivity | reflexivity].
    + exists []. simpl. auto.
  - match goal with
    | |- context [rangeVersions w ?ns ?s0] =>
        destruct (rangeVersions_extends w ns s0) as (es & Hr);
        destruct (rangeVersions w ns s0) as [s' | r]
    end.
    + destruct Hr as (Ht & _ & _ & Hes). simpl in Ht.
      rewrite <- !app_assoc in Ht. simpl in Ht.
      destruct (negb (HasNextPage (VersionsPageInfo (Versions pkg)))).
      * unfold afterVersionsLoop. destruct (negb _).
        -- eexists (_ :: (es ++ [_; _]))%list. split.
           ++ simpl. rewrite Ht, <- !app_assoc. reflexivity.
           ++ simpl. rewrite queriesOf_app, Hes. reflexivity.
        -- eexists (_ :: es). split; [exact Ht | exact Hes].
      * eexists (_ :: es). split; [exact Ht | exact Hes].
    + destruct Hr as (Ht & Hes). simpl in Ht.
      rewrite <- !app_assoc in Ht. simpl in Ht.
      eexists (_ :: es). split; [exact Ht | exact Hes].
Qed.

(** The three ways in which a turn goes on to the next one. *)
Lemma iteration_continues w s s' :
  iteration w s = Continue s' ->
  exists query,
    Answer w (queryCalls s) (variables s) = inr query /\
    queryCalls s' = S (queryCalls s) /\
    ((PackageNodes (Packages query) = [] /\
      HasNextPage (PackagesPageInfo (Packages query)) = true /\
      versions s' = versions s /\
      variables s' =
        variables (setPackagesCursor s
                     (EndCursor (PackagesPageInfo (Packages query)))))
     \/
     (exists pkg others,
        PackageNodes (Packages query) = pkg :: others /\
        HasNextPage (VersionsPageInfo (Versions pkg)) = false /\
        HasNextPage (PackagesPageInfo (Packages query)) = true /\
        variables s' =
          variables (setPackagesCursor s
                       (EndCursor (PackagesPageInfo (Packages query)))))
     \/
     (exists pkg others,
        PackageNodes (Packages query) = pkg :: others /\
        HasNextPage (VersionsPageInfo (Versions pkg)) = true /\
        variables s' =
          variables (setVersionsCursor s
                       (EndCursor (VersionsPageInfo (Versions pkg)))))).
Proof.
  unfold iteration.
  destruct (Answer w (queryCalls s) (variables s)) as [err | query];
    [discriminate |].
  intros H. exists query. split; [reflexivity |].
  destruct (PackageNodes (Packages query)) as [|pkg others].
  - unfold afterVersionsLoop in H.
    destruct (HasNextPage (PackagesPageInfo (Packages query))) eqn:Hp;
      simpl in H; [| discriminate].
    injection H as <-. split; [reflexivity |]. left. auto.
  - match type of H with
    | context [rangeVersions w ?ns ?s0] =>
        destruct (rangeVersions_extends w ns s0) as (es & Hr);
        destruct (rangeVersions w ns s0) as [s1 | r]; [| discriminate]
    end.
    destruct Hr as (_ & Hvars & Hq & _). simpl in Hvars, Hq.
    destruct (HasNextPage (VersionsPageInfo (Versions pkg))) eqn:Hv;
      simpl in H.
    + injection H as <-. split; [exact Hq |].
      right; right. exists pkg, others. simpl. rewrite Hvars. auto.
    + unfold afterVersionsLoop in H.
      destruct (HasNextPage (PackagesPageInfo (Packages query))) eqn:Hp;
        simpl in H; [| discriminate].
      injection H as <-. split; [exact Hq |].
      right; left. exists pkg, others. simpl. rewrite Hvars. auto.
Qed.

(** ** An empty page of packages *)

Lemma iteration_empty_page w s query :
  Answer w (queryCalls s) (variables s) = inr query ->
  PackageNodes (Packages query) = [] ->
  iteration w s = afterVersionsLoop query (sent s None).
Proof.
  intros Ha Hn. unfold iteration. rewrite Ha, Hn. reflexivity.
Qed.

(** C7, as the code has it: a page without package nodes ends the versions
    loop at once, with no version looked at.  The packages loop then ends,
    and the result is published, only when the page says there is no next
    page; when it says there is one, the packages cursor moves to the end
    cursor of the page and the next turn sends a further query. *)
Theorem empty_package_page_ends_only_the_versions_loop :
  forall w s query,
    Answer w (queryCalls s) (variables s) = inr query ->
    PackageNodes (Packages query) = [] ->
    (HasNextPage (PackagesPageInfo (Packages query)) = false ->
     iteration w s = Stop (publish (sent s None)) /\
     forall fuel, loop (S fuel) w s = Some (publish (sent s None)))
    /\
    (HasNextPage (PackagesPageInfo (Packages query)) = true ->
     let s' := setPackagesCursor (sent s None)
                 (EndCursor (PackagesPageInfo (Packages query))) in
     iteration w s = Continue s' /\
     versions s' = versions s /\
     trace s' = (trace s ++ [EvQuery (variables s) None])%list /\
     cursors (variables s') =
       (Some (EndCursor (PackagesPageInfo (Packages query))),
        versionsCursor (variables s)) /\
     (forall fuel, loop (S fuel) w s = loop fuel w s') /\
     exists err es,
       eventsAfter s' (iteration w s') = EvQuery (variables s') err :: es).
Proof.
  intros w s query Ha Hn.
  pose proof (iteration_empty_page w s query Ha Hn) as Hit.
  unfold afterVersionsLoop in Hit. split; intros Hp; rewrite Hp in Hit;
    simpl in Hit.
  - split; [exact Hit |]. intros fuel. simpl. rewrite Hit. reflexivity.
  - intros s'. split; [exact Hit |].
    split; [reflexivity |]. split; [reflexivity |]. split; [reflexivity |].
    split.
    + intros fuel. simpl. rewrite Hit. reflexivity.
    + destruct (iteration_extends w s') as (err & es & Hext & _).
      exists err, es. unfold eventsAfter.
      destruct (iteration w s') as [s'' | r]; rewrite Hext;
        apply skipn_length_app.
Qed.

Lemma empty_package_page_ends_only_the_versions_loop_witness :
  exists s',
    iteration emptyPageThenMore (initialState "percona-platform" "demo")
      = Continue s' /\
    cursors (variables s') = (Some "next", None).
Proof.
  destruct (empty_package_page_ends_only_the_versions_loop
              emptyPageThenMore (initialState "percona-platform" "demo")
              _ eq_refl eq_refl) as (_ & Hmore).
  destruct (Hmore eq_refl) as (Hit & _ & _ & Hc & _).
  eexists. split; [exact Hit | exact Hc].
Defined.

(** C7, as it is worded, fails: the first page of [emptyPageThenMore] has
    no package node and announces a next page; the run sends a second
    query and finds a stale version on its page. *)
Lemma empty_page_with_next_page_is_followed_by_a_query :
  exists query r,
    Answer emptyPageThenMore 0
           (variables (initialState "percona-platform" "demo")) = inr query /\
    PackageNodes (Packages query) = [] /\
    HasNextPage (PackagesPageInfo (Packages query)) = true /\
    main 2 emptyPageThenMore = Some r /\
    exit r = Returned /\
    List.map cursors (queriesOf (events r)) =
      [(None, None); (Some "next", None)] /\
    published (events r) = [("STALE_VERSIONS", "A1")].
Proof.
  do 2 eexists.
  split; [reflexivity |]. split; [reflexivity |]. split; [reflexivity |].
  split; [vm_compute; reflexivity |].
  repeat split.
Qed.

(** ** The versions cursor *)

(** C10: the versions cursor is [nil] at the start and is assigned nowhere
    but at line 128, with the end cursor of a versions page that has a
    next page; once set it is never [nil] again.  When a turn moves the
    packages cursor on, the versions cursor keeps its value, so the first
    query for the next package carries the last cursor assigned for the
    package before.  The run over [twoPackages] with one version per page
    shows it: its third query, the first for the second package, has the
    versions cursor of the first package's pagination. *)
Theorem versions_cursor_is_never_reset :
  (forall owner name,
      versionsCursor (variables (initialState owner name)) = None)
  /\
  (forall w s s',
      iteration w s = Continue s' ->
      exists query,
        Answer w (queryCalls s) (variables s) = inr query /\
        ((versionsCursor (variables s') = versionsCursor (variables s) /\
          packagesCursor (variables s') =
            Some (EndCursor (PackagesPageInfo (Packages query))))
         \/
         (exists pkg others,
            PackageNodes (Packages query) = pkg :: others /\
            HasNextPage (VersionsPageInfo (Versions pkg)) = true /\
            versionsCursor (variables s') =
              Some (EndCursor (VersionsPageInfo (Versions pkg))) /\
            packagesCursor (variables s') = packagesCursor (variables s)))
        /\
        (versionsCursor (variables s) <> None ->
         versionsCursor (variables s') <> None))
  /\
  (exists r,
      main 3 (pagedWorld 1 twoPackages thirtyDaysLater) = Some r /\
      List.map cursors (queriesOf (events r)) =
        [(None, None); (None, Some "c"); (Some "c", Some "c")]).
Proof.
  split; [reflexivity |]. split.
  - intros w s s' Hit.
    apply iteration_continues in Hit
      as (query & Ha & _ & [(_ & _ & _ & Hv) | [Hv | Hv]]).
    + exists query. rewrite Hv. simpl. split; [assumption |].
      split; [left; auto | auto].
    + destruct Hv as (pkg & others & _ & _ & _ & Hv).
      exists query. rewrite Hv. simpl. split; [assumption |].
      split; [left; auto | auto].
    + destruct Hv as (pkg & others & Hn & Hm & Hv).
      exists query. rewrite Hv. simpl. split; [assumption |].
      split; [right; exists pkg, others; auto | discriminate].
  - eexists. split; [vm_compute; reflexivity | reflexivity].
Qed.

Lemma versions_cursor_is_never_reset_witness :
  exists s1 s2 r,
    iteration (pagedWorld 1 twoPackages thirtyDaysLater)
              (initialState "percona-platform" "demo") = Continue s1 /\
    iteration (pagedWorld 1 twoPackages thirtyDaysLater) s1 = Continue s2 /\
    cursors (variables s1) = (None, Some "c") /\
    cursors (variables s2) = (Some "c", Some "c") /\
    iteration (pagedWorld 1 twoPackages thirtyDaysLater) s2 = Stop r /\
    versionsCursor (variables s2) <> None.
Proof.
  set (W := pagedWorld 1 twoPackages thirtyDaysLater).
  set (s0 := initialState "percona-platform" "demo").
  set (s1 := match iteration W s0 with Continue s => s | Stop _ => s0 end).
  set (s2 := match iteration W s1 with Continue s => s | Stop _ => s1 end).
  assert (H1 : iteration W s0 = Continue s1) by (vm_compute; reflexivity).
  assert (H2 : iteration W s1 = Continue s2) by (vm_compute; reflexivity).
  exists s1, s2. eexists.
  split; [exact H1 |]. split; [exact H2 |].
  split; [reflexivity |]. split; [reflexivity |].
  split; [vm_compute; reflexivity |].
  destruct versions_cursor_is_never_reset as (_ & Hstep & _).
  destruct (Hstep W s1 s2 H2) as (query & _ & _ & Hkeep).
  apply Hkeep. vm_compute. discriminate.
Defined.

(** ** Versions without files *)














(** ** The end-to-end scenario *)

Lemma matchVersion_pr_8 : matchVersion "pr-8" = true.
Proof. reflexivity. Qed.

Lemma matchVersion_v1_0_0 : matchVersion "v1.0.0" = true.
Proof. reflexivity. Qed.

Lemma older_than_ttl now age :
  time.Before (now - age)%Z (time.Add now (- packageTTL)%Z) =
  (sevenDays <? age)%Z.
Proof.
  rewrite packageTTL_sevenDays. unfold time.Before, time.Add.
  destruct (Z.ltb_spec sevenDays age); [apply Z.ltb_lt | apply Z.ltb_ge]; lia.
Qed.

Lemma ten_days_is_older_than_ttl now :
  time.Before (now - 10 * day)%Z (time.Add now (- packageTTL)%Z) = true.
Proof.
  rewrite older_than_ttl. reflexivity.
Qed.

(** The run of the scenario, for any tag of the first version. *)
Lemma scenario_run tag idV1 idPr7 idPr8 age now fuel :
  main (S fuel) (scenarioWorld tag idV1 idPr7 idPr8 age now) =
    Some (scenarioRun tag idV1 idPr7 idPr8 age now
            (matchVersion tag && (sevenDays <? age)%Z)).
Proof.
  pose proof (older_than_ttl now age) as Hage.
  pose proof (ten_days_is_older_than_ttl now) as Hten.
  pose proof matchVersion_pr_8 as Hpr8.
  cbv -[matchVersion Z.ltb Z.add Z.sub Z.opp Z.mul String.append]
    in Hage, Hten, Hpr8 |- *.
  rewrite Hten, Hpr8.
  destruct (matchVersion tag); [rewrite Hage |];
    destruct (604800000000000 <? age)%Z; reflexivity.
Qed.

(** C4, as the code has it: in the scenario the version [pr-7] is skipped
    and [pr-8] is stale; the version tagged [v1.0.0], a tag that its
    leading "v" keeps out of the semantic versions, is retained when its
    file is at most seven days old and stale when it is older, and the
    published value is the identifier of [pr-8], preceded in the second
    case by that of [v1.0.0].  With a tag that is a semantic version, the
    first version is retained at any age and the identifier of [pr-8] is
    all that is published. *)
Theorem scenario_publishes_pr_8_and_old_v1_0_0 :
  forall idV1 idPr7 idPr8 age now fuel,
    ~ SemVer.isSemVer "v1.0.0" /\
    main (S fuel) (scenarioWorld "v1.0.0" idV1 idPr7 idPr8 age now) =
      Some (scenarioRun "v1.0.0" idV1 idPr7 idPr8 age now
              (sevenDays <? age)%Z) /\
    (forall tag,
        SemVer.isSemVer tag ->
        main (S fuel) (scenarioWorld tag idV1 idPr7 idPr8 age now) =
          Some (scenarioRun tag idV1 idPr7 idPr8 age now false)).
Proof.
  intros idV1 idPr7 idPr8 age now fuel. split; [| split].
  - intros H. apply MatchString_reg in H. discriminate H.
  - rewrite scenario_run, matchVersion_v1_0_0. reflexivity.
  - intros tag Htag. rewrite scenario_run.
    assert (Hm : matchVersion tag = false).
    { apply matchVersion_false_iff. left. assumption. }
    rewrite Hm. reflexivity.
Qed.

Lemma scenario_publishes_pr_8_and_old_v1_0_0_witness :
  SemVer.isSemVer "1.0.0" /\
  published
    (events (scenarioRun "1.0.0" "V1" "V2" "V3" (30 * day)%Z (100 * day)%Z
               false)) = [("STALE_VERSIONS", "V3")] /\
  main 1 (scenarioWorld "1.0.0" "V1" "V2" "V3" (30 * day)%Z (100 * day)%Z) =
    Some (scenarioRun "1.0.0" "V1" "V2" "V3" (30 * day)%Z (100 * day)%Z false).
Proof.
  assert (Hsemver : SemVer.isSemVer "1.0.0")
    by (apply MatchString_reg; reflexivity).
  split; [exact Hsemver |]. split; [reflexivity |].
  destruct (scenario_publishes_pr_8_and_old_v1_0_0
              "V1" "V2" "V3" (30 * day)%Z (100 * day)%Z 0) as (_ & _ & Htag).
  apply Htag. exact Hsemver.
Defined.

(** C4, as it is worded, fails: with a file of [v1.0.0] that is 30 days
    old, the identifier of [v1.0.0] is published ahead of that of
    [pr-8]. *)
Lemma scenario_old_v1_0_0_is_published :
  exists r,
    main 1 (scenarioWorld "v1.0.0" "V1" "V2" "V3" (30 * day)%Z (100 * day)%Z)
      = Some r /\
    exit r = Returned /\
    staleLogged (events r) = ["V1"; "V3"] /\
    published (events r) = [("STALE_VERSIONS", "V1, V3")] /\
    published (events r) <> [("STALE_VERSIONS", "V3")].
Proof.
  eexists. split; [vm_compute; reflexivity |].
  repeat split. discriminate.
Qed.

(** ** Page boundaries *)

(** C3, on the code: the same two packages served with one version per
    page, instead of all versions of a package on one page, give another
    stale set.  The versions cursor left by the first package is sent with
    the first query for the second package, whose only version is then
    never on a page. *)
Theorem page_size_changes_the_stale_set :
  exists whole split,
    main 2 (pagedWorld 100 twoPackages thirtyDaysLater) = Some whole /\
    main 3 (pagedWorld 1 twoPackages thirtyDaysLater) = Some split /\
    exit whole = Returned /\ exit split = Returned /\
    staleLogged (events whole) = ["A1"; "A2"; "B1"] /\
    staleLogged (events split) = ["A1"; "A2"] /\
    published (events whole) = [("STALE_VERSIONS", "A1, A2, B1")] /\
    published (events split) = [("STALE_VERSIONS", "A1, A2")] /\
    List.map cursors (queriesOf (events whole)) =
      [(None, None); (Some "c", None)] /\
    List.map cursors (queriesOf (events split)) =
      [(None, None); (None, Some "c"); (Some "c", Some "c")].
Proof.
  do 2 eexists.
  split; [vm_compute; reflexivity |].
  split; [vm_compute; reflexivity |].
  repeat split.
Qed.

(** ** Pagination that the code gets right

    As long as the versions cursor is still [nil] when the packages cursor
    moves, that is, when only the last package has more versions than fit
    a page, the run finds the stale versions of the whole data set, each
    once and in order, whatever the page size. *)

Section Paged.

Variable pageSize : nat.
Variable data : list PackageData.
Variable now : time.Time.
Hypothesis pageSize_positive : (0 < pageSize)%nat.

Let w : World := pagedWorld pageSize data now.

Lemma length_cursorOf n : String.length (cursorOf n) = n.
Proof.
  induction n as [|n IH]; simpl; [reflexivity | rewrite IH; reflexivity].
Qed.

Lemma staleIdentifiers_app l1 l2 :
  staleIdentifiers now (l1 ++ l2) =
  (staleIdentifiers now l1 ++ staleIdentifiers now l2)%list.
Proof. apply flat_map_app. Qed.

Lemma visitVersion_paged node s :
  hasStringID node ->
  exists s',
    visitVersion w node s = Continue s' /\
    versions s' = (versions s ++ staleIdentifiers now [node])%list /\
    variables s' = variables s /\ queryCalls s' = queryCalls s.
Proof.
  intros (id & Hid). unfold visitVersion, staleIdentifiers, staleAt. simpl.
  destruct (Files node) as [|file rest].
  { eexists. split; [reflexivity |]. simpl. rewrite app_nil_r. auto. }
  destruct (matchVersion (Version node)); simpl.
  - destruct (time.Before _ _).
    + rewrite Hid. eexists. split; [reflexivity |]. simpl. auto.
    + eexists. split; [reflexivity |]. simpl. rewrite app_nil_r. auto.
  - eexists. split; [reflexivity |]. simpl. rewrite app_nil_r. auto.
Qed.

Lemma rangeVersions_paged nodes s :
  Forall hasStringID nodes ->
  exists s',
    rangeVersions w nodes s = Continue s' /\
    versions s' = (versions s ++ staleIdentifiers now nodes)%list /\
    variables s' = variables s /\ queryCalls s' = queryCalls s.
Proof.
  intros Hall. revert s. induction Hall as [|node rest Hnode _ IH];
    intros s.
  - exists s. simpl. rewrite app_nil_r. auto.
  - destruct (visitVersion_paged node s Hnode) as (s1 & Hv & Hvs & Hvar & Hq).
    destruct (IH s1) as (s2 & Hr & Hvs2 & Hvar2 & Hq2).
    exists s2. cbn [rangeVersions]. rewrite Hv. split; [exact Hr |].
    rewrite Hvs2, Hvs, Hvar2, Hvar, Hq2, Hq.
    change (node :: rest) with ([node] ++ rest)%list.
    rewrite (staleIdentifiers_app [node] rest), app_assoc. auto.
Qed.

Lemma Forall_prefix {A} (P : A -> Prop) n l :
  Forall P l -> Forall P (firstn n l).
Proof.
  intros H. rewrite <- (firstn_skipn n l) in H.
  apply Forall_app in H. tauto.
Qed.

Lemma Forall_suffix {A} (P : A -> Prop) n l :
  Forall P l -> Forall P (skipn n l).
Proof.
  intros H. rewrite <- (firstn_skipn n l) in H.
  apply Forall_app in H. tauto.
Qed.

Lemma servePage_nodes v d rest :
  skipn (offsetOf (packagesCursor v)) data = d :: rest ->
  PackageNodes (Packages (servePage pageSize data v)) =
    [ {| PackageID := dataID d; Name := dataName d;
         Versions :=
           {| VersionNodes :=
                pageAt pageSize (offsetOf (versionsCursor v))
                       (dataVersions d);
              VersionsPageInfo :=
                pageInfoAt pageSize (offsetOf (versionsCursor v))
                           (dataVersions d) |} |} ].
Proof.
  intros Hskip. unfold servePage, pageAt. simpl. rewrite Hskip. reflexivity.
Qed.

Lemma servePage_more v d rest :
  skipn (offsetOf (packagesCursor v)) data = d :: rest ->
  HasNextPage (PackagesPageInfo (Packages (servePage pageSize data v))) =
    match rest with [] => false | _ :: _ => true end /\
  EndCursor (PackagesPageInfo (Packages (servePage pageSize data v))) =
    cursorOf (offsetOf (packagesCursor v) + 1).
Proof.
  intros Hskip. unfold servePage, pageInfoAt. simpl. rewrite Hskip.
  destruct rest; split; reflexivity.
Qed.

(** One turn of the loops on the page of package [d], the package at the
    offset of the packages cursor. *)
Lemma iteration_paged s d rest :
  skipn (offsetOf (packagesCursor (variables s))) data = d :: rest ->
  Forall hasStringID (dataVersions d) ->
  Inv s ->
  let p := offsetOf (packagesCursor (variables s)) in
  let k := offsetOf (versionsCursor (variables s)) in
  let page := pageAt pageSize k (dataVersions d) in
  exists s1,
    Inv s1 /\
    versions s1 = (versions s ++ staleIdentifiers now page)%list /\
    variables s1 = variables s /\
    iteration w s =
      if (pageSize <? List.length (skipn k (dataVersions d)))%nat
      then Continue (setVersionsCursor s1
                       (cursorOf (k + List.length page)))
      else match rest with
           | [] => Stop (publish s1)
           | _ :: _ => Continue (setPackagesCursor s1 (cursorOf (p + 1)))
           end.
Proof.
  intros Hskip Hids HI p k page.
  unfold iteration.
  change (Answer w (queryCalls s) (variables s))
    with (@inr string Query (servePage pageSize data (variables s))).
  cbv iota beta.
  rewrite (servePage_nodes (variables s) d rest Hskip).
  cbn [Versions VersionNodes VersionsPageInfo PackageID Name].
  fold k. fold page.
  assert (Hpage : Forall hasStringID page).
  { unfold page, pageAt. apply Forall_prefix, Forall_suffix. exact Hids. }
  destruct (rangeVersions_paged page
              (emit (sent s None) (EvInspecting (dataID d) (dataName d)))
              Hpage) as (s1 & Hr & Hvs & Hvar & _).
  rewrite Hr. exists s1.
  split.
  { pose proof (rangeVersions_Inv w page
                  (emit (sent s None) (EvInspecting (dataID d) (dataName d))))
      as Hinv.
    rewrite Hr in Hinv. apply Hinv. apply Inv_emit; auto using Inv_sent. }
  split; [exact Hvs |]. split; [exact Hvar |].
  unfold pageInfoAt. cbn [HasNextPage EndCursor].
  destruct (pageSize <? List.length (skipn k (dataVersions d)))%nat.
  - reflexivity.
  - cbn [negb]. unfold afterVersionsLoop.
    destruct (servePage_more (variables s) d rest Hskip) as (Hmore & Hend).
    rewrite Hmore, Hend. destruct rest; reflexivity.
Qed.

Lemma loop_more_fuel fuel extra (w0 : World) s r :
  loop fuel w0 s = Some r -> loop (fuel + extra) w0 s = Some r.
Proof.
  revert s. induction fuel as [|fuel IH]; intros s H; simpl in *.
  - discriminate.
  - destruct (iteration w0 s) as [s' | r']; [apply IH |]; assumption.
Qed.

(** The pages of the last package, from the versions cursor on. *)
Lemma last_package_paged m :
  forall s d,
    skipn (offsetOf (packagesCursor (variables s))) data = [d] ->
    Forall hasStringID (dataVersions d) ->
    Inv s ->
    (List.length (skipn (offsetOf (versionsCursor (variables s)))
                        (dataVersions d)) <= m)%nat ->
    exists fuel s1,
      loop fuel w s = Some (publish s1) /\ Inv s1 /\
      versions s1 =
        (versions s ++
         staleIdentifiers now
           (skipn (offsetOf (versionsCursor (variables s)))
                  (dataVersions d)))%list.
Proof.
  induction m as [|m IH]; intros s d Hskip Hids HI Hm;
    destruct (iteration_paged s d [] Hskip Hids HI)
      as (s1 & HI1 & Hvs & Hvar & Hit);
    set (k := offsetOf (versionsCursor (variables s))) in *;
    set (vs := dataVersions d) in *.
  - assert (Hlt : (pageSize <? List.length (skipn k vs))%nat = false)
      by (apply Nat.ltb_ge; lia).
    rewrite Hlt in Hit. exists 1, s1. simpl. rewrite Hit.
    split; [reflexivity |]. split; [assumption |].
    rewrite Hvs. unfold pageAt. rewrite firstn_all2 by lia. reflexivity.
  - destruct (pageSize <? List.length (skipn k vs))%nat eqn:Hlt.
    + apply Nat.ltb_lt in Hlt.
      assert (Hlen : List.length (pageAt pageSize k vs) = pageSize).
      { unfold pageAt. rewrite length_firstn. lia. }
      rewrite Hlen in Hit.
      set (s' := setVersionsCursor s1 (cursorOf (k + pageSize))) in *.
      assert (Hk' : offsetOf (versionsCursor (variables s')) = k + pageSize)
        by (simpl; apply length_cursorOf).
      assert (Hp' : packagesCursor (variables s') =
                    packagesCursor (variables s))
        by (simpl; rewrite Hvar; reflexivity).
      assert (Hrest : skipn (k + pageSize) vs = skipn pageSize (skipn k vs))
        by (rewrite skipn_skipn; f_equal; lia).
      destruct (IH s' d) as (fuel & s2 & Hloop & HI2 & Hvs2).
      * rewrite Hp'. exact Hskip.
      * exact Hids.
      * exact HI1.
      * rewrite Hk'. fold vs. rewrite Hrest, length_skipn. lia.
      * exists (S fuel), s2. simpl. rewrite Hit.
        split; [exact Hloop |]. split; [exact HI2 |].
        rewrite Hvs2, Hk'. fold vs. simpl versions. rewrite Hvs, Hrest.
        rewrite <- app_assoc, <- staleIdentifiers_app.
        unfold pageAt. rewrite firstn_skipn. reflexivity.
    + apply Nat.ltb_ge in Hlt.
      exists 1, s1. simpl. rewrite Hit.
      split; [reflexivity |]. split; [assumption |].
      rewrite Hvs. unfold pageAt. rewrite firstn_all2 by lia. reflexivity.
Qed.

(** A package that is not the last and has all its versions on one
    page, met with a versions cursor that is still [nil]. *)
Lemma front_package_paged s d d' rest :
  skipn (offsetOf (packagesCursor (variables s))) data = d :: d' :: rest ->
  versionsCursor (variables s) = None ->
  (List.length (dataVersions d) <= pageSize)%nat ->
  Forall hasStringID (dataVersions d) ->
  Inv s ->
  exists s',
    iteration w s = Continue s' /\ Inv s' /\
    versions s' = (versions s ++ staleIdentifiers now (dataVersions d))%list /\
    versionsCursor (variables s') = None /\
    skipn (offsetOf (packagesCursor (variables s'))) data = d' :: rest.
Proof.
  intros Hskip Hnil Hlen Hids HI.
  destruct (iteration_paged s d (d' :: rest) Hskip Hids HI)
    as (s1 & HI1 & Hvs & Hvar & Hit).
  rewrite Hnil in Hit, Hvs. simpl offsetOf in Hit, Hvs.
  rewrite skipn_0 in Hit.
  assert (Hlt : (pageSize <? List.length (dataVersions d))%nat = false)
    by (apply Nat.ltb_ge; lia).
  rewrite Hlt in Hit.
  unfold pageAt in Hvs. rewrite skipn_0, firstn_all2 in Hvs by lia.
  eexists. split; [exact Hit |]. split; [exact HI1 |].
  split; [exact Hvs |]. split.
  - simpl. rewrite Hvar. exact Hnil.
  - simpl. rewrite length_cursorOf.
    replace (offsetOf (packagesCursor (variables s)) + 1)
      with (1 + offsetOf (packagesCursor (variables s))) by lia.
    rewrite <- skipn_skipn, Hskip. reflexivity.
Qed.

(** After the last package: no node, no next page. *)
Lemma past_last_package_paged s :
  skipn (offsetOf (packagesCursor (variables s))) data = [] ->
  iteration w s = Stop (publish (sent s None)).
Proof.
  intros Hskip. unfold iteration.
  change (Answer w (queryCalls s) (variables s))
    with (@inr string Query (servePage pageSize data (variables s))).
  cbv iota beta.
  unfold servePage, afterVersionsLoop, pageAt, pageInfoAt. simpl.
  rewrite Hskip. reflexivity.
Qed.

(** The run from a package on, met with a versions cursor that is still
    [nil]. *)
Lemma packages_loop_paged suffix :
  forall s,
    skipn (offsetOf (packagesCursor (variables s))) data = suffix ->
    versionsCursor (variables s) = None ->
    onePageButLast pageSize suffix ->
    Forall hasStringID (allVersions suffix) ->
    Inv s ->
    exists fuel s1,
      loop fuel w s = Some (publish s1) /\ Inv s1 /\
      versions s1 =
        (versions s ++ staleIdentifiers now (allVersions suffix))%list.
Proof.
  induction suffix as [|d rest IH]; intros s Hskip Hnil Hone Hids HI.
  - exists 1, (sent s None). simpl.
    rewrite (past_last_package_paged s Hskip).
    split; [reflexivity |]. split; [apply Inv_sent; assumption |].
    simpl. rewrite app_nil_r. reflexivity.
  - unfold allVersions in Hids. simpl in Hids.
    apply Forall_app in Hids as [Hd Hrest].
    destruct rest as [|d' rest].
    + destruct (last_package_paged
                  (List.length (dataVersions d)) s d Hskip Hd HI)
        as (fuel & s1 & Hloop & HI1 & Hvs).
      { rewrite length_skipn. lia. }
      exists fuel, s1. split; [exact Hloop |]. split; [exact HI1 |].
      rewrite Hvs, Hnil. simpl offsetOf. rewrite skipn_0.
      unfold allVersions. simpl. rewrite app_nil_r. reflexivity.
    + destruct Hone as [Hlen Hone].
      destruct (front_package_paged s d d' rest Hskip Hnil Hlen Hd HI)
        as (s' & Hit & HI' & Hvs' & Hnil' & Hskip').
      destruct (IH s' Hskip' Hnil' Hone Hrest HI')
        as (fuel & s1 & Hloop & HI1 & Hvs).
      exists (S fuel), s1. simpl. rewrite Hit.
      split; [exact Hloop |]. split; [exact HI1 |].
      rewrite Hvs, Hvs'. unfold allVersions. simpl.
      rewrite <- app_assoc, <- staleIdentifiers_app. reflexivity.
Qed.

End Paged.

Lemma main_pagedWorld fuel pageSize data now :
  main fuel (pagedWorld pageSize data now) =
    loop fuel (pagedWorld pageSize data now)
         (initialState "percona-platform" "demo").
Proof. reflexivity. Qed.

Lemma publish_staleLogged s :
  Inv s ->
  staleLogged (events (publish s)) = versions s /\
  published (events (publish s)) =
    [("STALE_VERSIONS", strings.Join (versions s) ", ")].
Proof.
  intros (_ & Hp & Hv). unfold publish. simpl.
  rewrite staleLogged_app, published_app, Hp, Hv. simpl.
  rewrite app_nil_r. auto.
Qed.

(** The run over a data set with every package but the last on one page. *)
Lemma paged_run_onePageButLast :
  forall pageSize data now,
    (0 < pageSize)%nat ->
    onePageButLast pageSize data ->
    Forall hasStringID (allVersions data) ->
    exists fuel r,
      (forall extra,
          main (fuel + extra) (pagedWorld pageSize data now) = Some r) /\
      exit r = Returned /\
      staleLogged (events r) = staleIdentifiers now (allVersions data) /\
      published (events r) =
        [("STALE_VERSIONS",
          strings.Join (staleIdentifiers now (allVersions data)) ", ")].
Proof.
  intros pageSize data now Hpos Hone Hids.
  destruct (packages_loop_paged pageSize data now Hpos data
              (initialState "percona-platform" "demo"))
    as (fuel & s1 & Hloop & HI1 & Hvs); auto using Inv_initialState.
  exists fuel, (publish s1). split.
  - intros extra. rewrite main_pagedWorld.
    apply loop_more_fuel. exact Hloop.
  - destruct (publish_staleLogged s1 HI1) as (Hs & Hp).
    rewrite Hs, Hp, Hvs. simpl. auto.
Qed.

(** More fuel does not change what a run ends with. *)
Lemma main_more_fuel fuel extra w r :
  main fuel w = Some r -> main (fuel + extra) w = Some r.
Proof.
  unfold main.
  destruct (String.eqb (Getenv w "ROBOT_TOKEN") ""); [auto |].
  destruct (String.eqb (Getenv w "GITHUB_REPOSITORY") ""); [auto |].
  destruct (nth_error _ 0) as [owner |]; [| auto].
  destruct (nth_error _ 1) as [name |]; [| auto].
  apply loop_more_fuel.
Qed.

(** X14: for a data set in which every version identifier is a string and
    every package but the last has all its versions on one page, and with
    a clock that stands still, the run returns and its stale set is that
    of the whole data set, each stale version once and in order; the last
    package may take any number of pages. *)
Theorem paged_run_finds_the_stale_set :
  forall pageSize data now,
    (0 < pageSize)%nat ->
    onePageButLast pageSize data ->
    Forall hasStringID (allVersions data) ->
    exists fuel r,
      (forall extra,
          main (fuel + extra) (pagedWorld pageSize data now) = Some r) /\
      exit r = Returned /\
      staleLogged (events r) = staleIdentifiers now (allVersions data) /\
      published (events r) =
        [("STALE_VERSIONS",
          strings.Join (staleIdentifiers now (allVersions data)) ", ")].
Proof.
  exact paged_run_onePageButLast.
Qed.

Lemma paged_run_finds_the_stale_set_witness :
  exists fuel r,
    main fuel (pagedWorld 1 smallThenLarge thirtyDaysLater) = Some r /\
    List.length (queriesOf (events r)) = 3%nat /\
    staleLogged (events r) = ["B1"; "A1"; "A2"] /\
    published (events r) = [("STALE_VERSIONS", "B1, A1, A2")].
Proof.
  destruct (paged_run_finds_the_stale_set
              1 smallThenLarge thirtyDaysLater)
    as (fuel & r & Hrun & _ & Hstale & Hpub).
  - lia.
  - simpl. split; [lia | exact I].
  - repeat constructor; eexists; reflexivity.
  - exists (fuel + 3)%nat, r. split; [apply Hrun |].
    split; [| split; [exact Hstale | exact Hpub]].
    assert (H3 : exists r3,
               main 3 (pagedWorld 1 smallThenLarge thirtyDaysLater) = Some r3 /\
               List.length (queriesOf (events r3)) = 3%nat)
      by (eexists; split; [vm_compute; reflexivity | reflexivity]).
    destruct H3 as (r3 & Hr3 & Hlen).
    apply (main_more_fuel _ fuel) in Hr3.
    rewrite Nat.add_comm, Hrun in Hr3.
    injection Hr3 as ->. exact Hlen.
Defined.

(** X15: when every version identifier is a string, two page sizes that
    both leave every package but the last on one page give the same stale
    set and the same published value, though they need not take the same
    number of queries. *)
Theorem stale_set_is_the_same_while_the_versions_cursor_is_nil :
  forall size1 size2 data now,
    (0 < size1)%nat -> (0 < size2)%nat ->
    onePageButLast size1 data -> onePageButLast size2 data ->
    Forall hasStringID (allVersions data) ->
    exists fuel r1 r2,
      (forall extra,
          main (fuel + extra) (pagedWorld size1 data now) = Some r1) /\
      (forall extra,
          main (fuel + extra) (pagedWorld size2 data now) = Some r2) /\
      exit r1 = Returned /\ exit r2 = Returned /\
      staleLogged (events r1) = staleLogged (events r2) /\
      published (events r1) = published (events r2).
Proof.
  intros size1 size2 data now H1 H2 Hone1 Hone2 Hids.
  destruct (paged_run_onePageButLast size1 data now H1 Hone1 Hids)
    as (fuel1 & r1 & Hrun1 & Hex1 & Hs1 & Hp1).
  destruct (paged_run_onePageButLast size2 data now H2 Hone2 Hids)
    as (fuel2 & r2 & Hrun2 & Hex2 & Hs2 & Hp2).
  exists (fuel1 + fuel2)%nat, r1, r2.
  split; [intros extra; rewrite <- Nat.add_assoc; apply Hrun1 |].
  split; [intros extra;
          rewrite (Nat.add_comm fuel1 fuel2), <- Nat.add_assoc; apply Hrun2 |].
  rewrite Hs1, Hs2, Hp1, Hp2. auto.
Qed.

Lemma stale_set_is_the_same_while_the_versions_cursor_is_nil_witness :
  exists r1 r2,
    main 3 (pagedWorld 1 smallThenLarge thirtyDaysLater) = Some r1 /\
    main 3 (pagedWorld 2 smallThenLarge thirtyDaysLater) = Some r2 /\
    List.length (queriesOf (events r1)) = 3%nat /\
    List.length (queriesOf (events r2)) = 2%nat /\
    staleLogged (events r1) = staleLogged (events r2) /\
    published (events r1) = published (events r2).
Proof.
  destruct (stale_set_is_the_same_while_the_versions_cursor_is_nil
              1 2 smallThenLarge thirtyDaysLater)
    as (fuel & r1' & r2' & Hrun1 & Hrun2 & _ & _ & Hsame & Hpub).
  - lia.
  - lia.
  - simpl. split; [lia | exact I].
  - simpl. split; [lia | exact I].
  - repeat constructor; eexists; reflexivity.
  - eexists. eexists.
    split; [vm_compute; reflexivity |].
    split; [vm_compute; reflexivity |].
    split; [reflexivity |]. split; [reflexivity |].
    match goal with
    | |- staleLogged (events ?a) = staleLogged (events ?b) /\ _ =>
        assert (Ha : main 3 (pagedWorld 1 smallThenLarge thirtyDaysLater)
                     = Some a) by (vm_compute; reflexivity);
        assert (Hb : main 3 (pagedWorld 2 smallThenLarge thirtyDaysLater)
                     = Some b) by (vm_compute; reflexivity)
    end.
    apply (main_more_fuel _ fuel) in Ha. apply (main_more_fuel _ fuel) in Hb.
    rewrite Nat.add_comm, Hrun1 in Ha. rewrite Nat.add_comm, Hrun2 in Hb.
    injection Ha as Ha. injection Hb as Hb.
    rewrite <- Ha, <- Hb. split; [exact Hsame | exact Hpub].
Defined.

(* ================================================================== *)
(** * Further properties of the code *)
(* ================================================================== *)

(** ** The tags that [matchVersion] protects *)

Import SemVer.

Lemma zero_is_no_positive_digit : ~ positive_digit "0"%char.
Proof. unfold positive_digit, oneOf. simpl. intuition discriminate. Qed.

Lemma dot_is_no_digit : ~ digit "."%char.
Proof.
  unfold digit, positive_digit, oneOf. simpl. intuition discriminate.
Qed.

Lemma numeric_identifier_head m :
  numeric_identifier m ->
  m = ["0"%char] \/ exists d ds, m = d :: ds /\ positive_digit d.
Proof.
  intros [| d Hd | d ds Hd _]; eauto.
Qed.

(** A valid semver starts with the digit 0 and a dot, or with a positive
    digit. *)
Lemma valid_semver_head s :
  valid_semver s ->
  (exists rest, s = "0"%char :: "."%char :: rest) \/
  (exists d rest, s = d :: rest /\ positive_digit d).
Proof.
  assert (Hcore : forall c t, version_core c ->
            (exists rest, (c ++ t)%list = "0"%char :: "."%char :: rest) \/
            (exists d rest, (c ++ t)%list = d :: rest /\ positive_digit d)).
  { intros c t [major minor patch Hmaj _ _].
    apply numeric_identifier_head in Hmaj as [-> | (d & ds & -> & Hd)].
    - left. simpl. eauto.
    - right. simpl. eauto. }
  intros [c Hc | c p Hc _ | c b Hc _ | c p b Hc _ _].
  - rewrite <- (app_nil_r c). apply Hcore; assumption.
  - apply Hcore; assumption.
  - apply Hcore; assumption.
  - apply Hcore; assumption.
Qed.

Lemma protected_not_semver_start c s :
  (forall rest, list_ascii_of_string (String c s) <>
                "0"%char :: "."%char :: rest) ->
  ~ positive_digit c ->
  (matchVersion (String c s) = false <->
   String c s = "latest" \/ String c s = "docker-base-layer").
Proof.
  intros Hzero Hpos. rewrite matchVersion_false_iff. unfold protectedTag.
  split; [| tauto].
  intros [Hsem | H]; [| exact H]. exfalso.
  apply valid_semver_head in Hsem as [(rest & E) | (d & rest & E & Hd)].
  - exact (Hzero rest E).
  - simpl in E. injection E as <- _. contradiction.
Qed.

(** X1: a tag whose first byte is not a decimal digit is protected only
    if it is [latest] or [docker-base-layer]; so no tag that starts with
    the letter v, such as [v1.2.3], is protected. *)
Theorem tag_without_leading_digit_is_protected_only_by_name :
  forall c s,
    ~ digit c ->
    (matchVersion (String c s) = false <->
     String c s = "latest" \/ String c s = "docker-base-layer") /\
    (c = "v"%char -> matchVersion (String c s) = true).
Proof.
  intros c s Hc.
  assert (Hiff : matchVersion (String c s) = false <->
                 String c s = "latest" \/ String c s = "docker-base-layer").
  { apply protected_not_semver_start.
    - intros rest E. simpl in E. injection E as -> _.
      apply Hc. left. reflexivity.
    - intros Hp. apply Hc. right. exact Hp. }
  split; [exact Hiff |].
  intros ->. apply not_false_iff_true. intros E.
  apply Hiff in E as [E | E]; discriminate E.
Qed.

Lemma tag_without_leading_digit_is_protected_only_by_name_witness :
  matchVersion "v10.20.30-rc.1" = true.
Proof.
  assert (Hv : ~ digit "v"%char).
  { unfold digit, positive_digit, oneOf. simpl. intuition discriminate. }
  destruct (tag_without_leading_digit_is_protected_only_by_name
              "v"%char "10.20.30-rc.1" Hv) as (_ & Hvtag).
  apply Hvtag. reflexivity.
Defined.

(** X2: a numeric major version has no leading zero: a tag that starts
    with 0 and a further digit is not protected. *)
Theorem tag_with_zero_padded_major_is_unprotected :
  forall d s,
    digit d -> matchVersion (String "0" (String d s)) = true.
Proof.
  intros d s Hd.
  apply not_false_iff_true. intros E.
  apply protected_not_semver_start in E as [E | E]; try discriminate E.
  - intros rest Hrest. simpl in Hrest. injection Hrest as -> _.
    exact (dot_is_no_digit Hd).
  - exact zero_is_no_positive_digit.
Qed.

Lemma tag_with_zero_padded_major_is_unprotected_witness :
  matchVersion "01.2.3" = true.
Proof.
  apply (tag_with_zero_padded_major_is_unprotected "1"%char ".2.3").
  right. unfold positive_digit, oneOf. simpl. auto.
Defined.

Lemma identifier_character_tagByte c :
  identifier_character c -> tagByte c = true.
Proof.
  intros H. unfold tagByte.
  apply identifier_character_class in H. rewrite H. reflexivity.
Qed.

Lemma identifier_characters_tagBytes l :
  Forall identifier_character l -> Forall (fun c => tagByte c = true) l.
Proof.
  apply Forall_impl. exact identifier_character_tagByte.
Qed.

Lemma numeric_identifier_characters m :
  numeric_identifier m -> Forall identifier_character m.
Proof.
  intros [| d Hd | d ds Hd Hds].
  - constructor; [left; left; reflexivity | constructor].
  - constructor; [left; right; exact Hd | constructor].
  - constructor; [left; right; exact Hd |].
    apply digits_iff in Hds as [_ Hds].
    revert Hds. apply Forall_impl. intros c Hc. left. exact Hc.
Qed.

Lemma pre_release_identifier_characters s :
  pre_release_identifier s -> Forall identifier_character s.
Proof.
  intros [H | H].
  - apply alphanumeric_iff in H. tauto.
  - apply numeric_identifier_characters; assumption.
Qed.

Lemma build_identifier_characters s :
  build_identifier s -> Forall identifier_character s.
Proof.
  intros [H | H].
  - apply alphanumeric_iff in H. tauto.
  - apply digits_iff in H as [_ H].
    revert H. apply Forall_impl. intros c Hc. left. exact Hc.
Qed.

Lemma dot_separated_tagBytes (P : list ascii -> Prop) l :
  (forall s, P s -> Forall identifier_character s) ->
  dot_separated P l -> Forall (fun c => tagByte c = true) l.
Proof.
  intros HP. induction 1 as [s Hs | s rest Hs _ IH].
  - apply identifier_characters_tagBytes, HP, Hs.
  - apply Forall_app. split.
    + apply identifier_characters_tagBytes, HP, Hs.
    + constructor; [reflexivity | exact IH].
Qed.

Lemma version_core_tagBytes c :
  version_core c -> Forall (fun c => tagByte c = true) c.
Proof.
  intros [major minor patch Hmaj Hmin Hpat].
  apply Forall_app. split;
    [apply identifier_characters_tagBytes, numeric_identifier_characters;
     assumption |].
  constructor; [reflexivity |].
  apply Forall_app. split;
    [apply identifier_characters_tagBytes, numeric_identifier_characters;
     assumption |].
  constructor; [reflexivity |].
  apply identifier_characters_tagBytes, numeric_identifier_characters;
    assumption.
Qed.

Lemma valid_semver_tagBytes s :
  valid_semver s -> Forall (fun c => tagByte c = true) s.
Proof.
  intros [c Hc | c p Hc Hp | c b Hc Hb | c p b Hc Hp Hb].
  - apply version_core_tagBytes; assumption.
  - apply Forall_app. split; [apply version_core_tagBytes; assumption |].
    constructor; [reflexivity |].
    apply (dot_separated_tagBytes pre_release_identifier);
      [exact pre_release_identifier_characters | exact Hp].
  - apply Forall_app. split; [apply version_core_tagBytes; assumption |].
    constructor; [reflexivity |].
    apply (dot_separated_tagBytes build_identifier);
      [exact build_identifier_characters | exact Hb].
  - apply Forall_app. split; [apply version_core_tagBytes; assumption |].
    constructor; [reflexivity |].
    apply Forall_app. split.
    + apply (dot_separated_tagBytes pre_release_identifier);
        [exact pre_release_identifier_characters | exact Hp].
    + constructor; [reflexivity |].
      apply (dot_separated_tagBytes build_identifier);
        [exact build_identifier_characters | exact Hb].
Qed.

Lemma protected_tag_bytes tag :
  matchVersion tag = false ->
  tag <> "" /\ forallb tagByte (list_ascii_of_string tag) = true.
Proof.
  intros H. apply matchVersion_false_iff in H as [H | [-> | ->]].
  - split.
    + intros ->. apply valid_semver_head in H as [(r & E) | (d & r & E & _)];
        discriminate E.
    + apply forallb_forall. apply Forall_forall.
      apply valid_semver_tagBytes. exact H.
  - split; [discriminate | reflexivity].
  - split; [discriminate | reflexivity].
Qed.

(** X3: a protected tag is not empty and is made of ASCII letters, digits,
    hyphens, dots and plus signs only; a tag with any other byte in it (a
    space, an underscore, a slash, a byte of a non-ASCII rune) is not
    protected. *)
Theorem protected_tag_has_only_tag_bytes :
  forall tag,
    (matchVersion tag = false ->
     tag <> "" /\ forallb tagByte (list_ascii_of_string tag) = true) /\
    (forall c, In c (list_ascii_of_string tag) -> tagByte c = false ->
               matchVersion tag = true).
Proof.
  intros tag. split; [apply protected_tag_bytes |].
  intros c Hin Hc. apply not_false_iff_true. intros H.
  apply protected_tag_bytes in H as [_ H].
  rewrite forallb_forall in H. rewrite (H c Hin) in Hc. discriminate.
Qed.

Lemma protected_tag_has_only_tag_bytes_witness :
  matchVersion "1.2.3_hotfix" = true.
Proof.
  destruct (protected_tag_has_only_tag_bytes "1.2.3_hotfix") as (_ & H).
  apply (H "_"%char).
  - simpl. auto 10.
  - reflexivity.
Defined.

(** ** What the run reads of a response *)

Lemma visitVersion_firstFileOnly w node s :
  visitVersion (firstOnlyWorld w) (firstFileOnly node) s =
    visitVersion w node s.
Proof.
  unfold visitVersion, firstFileOnly. simpl.
  destruct (Files node) as [|file rest]; reflexivity.
Qed.

Lemma rangeVersions_firstFileOnly w nodes s :
  rangeVersions (firstOnlyWorld w) (map firstFileOnly nodes) s =
    rangeVersions w nodes s.
Proof.
  revert s. induction nodes as [|node rest IH]; intros s; simpl.
  - reflexivity.
  - rewrite visitVersion_firstFileOnly.
    destruct (visitVersion w node s); [apply IH | reflexivity].
Qed.

Lemma iteration_firstOnly w s :
  iteration (firstOnlyWorld w) s = iteration w s.
Proof.
  unfold iteration.
  change (Answer (firstOnlyWorld w) (queryCalls s) (variables s))
    with (match Answer w (queryCalls s) (variables s) with
          | inl err => inl err
          | inr q => inr (firstOnly q)
          end).
  destruct (Answer w (queryCalls s) (variables s)) as [err | query];
    [reflexivity |].
  cbn [firstOnly Packages PackageNodes].
  destruct (PackageNodes (Packages query)) as [|pkg others].
  - reflexivity.
  - cbn [firstn map Versions VersionNodes VersionsPageInfo PackageID Name].
    rewrite rangeVersions_firstFileOnly. reflexivity.
Qed.

Lemma loop_firstOnly fuel w s :
  loop fuel (firstOnlyWorld w) s = loop fuel w s.
Proof.
  revert s. induction fuel as [|fuel IH]; intros s; simpl.
  - reflexivity.
  - rewrite iteration_firstOnly.
    destruct (iteration w s); [apply IH | reflexivity].
Qed.

(** X4: of every response the run reads the first package node and, of
    each of its versions, the first file, and nothing else: against an
    API that leaves all further package nodes and files out, the run is
    the same, event for event. *)
Theorem run_reads_first_package_and_first_file_only :
  forall fuel w, main fuel (firstOnlyWorld w) = main fuel w.
Proof.
  intros fuel w. unfold main.
  change (Getenv (firstOnlyWorld w)) with (Getenv w).
  destruct (String.eqb (Getenv w "ROBOT_TOKEN") ""); [reflexivity |].
  destruct (String.eqb (Getenv w "GITHUB_REPOSITORY") ""); [reflexivity |].
  destruct (nth_error (strings.Split _ _) 0) as [owner |]; [| reflexivity].
  destruct (nth_error (strings.Split _ _) 1) as [name |]; [| reflexivity].
  apply loop_firstOnly.
Qed.

(** ** Every stale line is borne out *)

Lemma Forall_snoc {A} (P : A -> Prop) l x :
  Forall P l -> P x -> Forall P (l ++ [x]).
Proof.
  intros Hl Hx. apply Forall_app. split; [exact Hl |].
  constructor; [exact Hx | constructor].
Qed.

Lemma visitVersion_justified w node s :
  returnedVersion w node ->
  Forall (staleLineJustified w) (trace s) ->
  match visitVersion w node s with
  | Continue s' => Forall (staleLineJustified w) (trace s')
  | Stop r => Forall (staleLineJustified w) (events r)
  end.
Proof.
  intros Hret Hs. unfold visitVersion.
  destruct (Files node) as [|file rest] eqn:Hf.
  { apply Forall_snoc; [exact Hs | exact I]. }
  destruct (matchVersion (Version node)) eqn:Hm.
  - destruct (time.Before _ _) eqn:Hb.
    + destruct (VersionID node) as [id |] eqn:Hid.
      * simpl. apply Forall_snoc; [exact Hs |].
        exists node, file, rest, (clockReads s).
        split; [exact Hret |]. split; [exact Hid |].
        split; [exists id; reflexivity |]. split; [reflexivity |].
        split; [exact Hf |]. split; [reflexivity |].
        split; [apply matchVersion_true_iff; exact Hm |].
        apply Before_Add_packageTTL. exact Hb.
      * exact Hs.
    + apply Forall_snoc; [exact Hs | exact I].
  - apply Forall_snoc; [exact Hs | exact I].
Qed.

Lemma rangeVersions_justified w nodes s :
  (forall node, In node nodes -> returnedVersion w node) ->
  Forall (staleLineJustified w) (trace s) ->
  match rangeVersions w nodes s with
  | Continue s' => Forall (staleLineJustified w) (trace s')
  | Stop r => Forall (staleLineJustified w) (events r)
  end.
Proof.
  revert s. induction nodes as [|node rest IH]; intros s Hret Hs; simpl.
  - exact Hs.
  - pose proof (visitVersion_justified w node s
                  (Hret node (or_introl eq_refl)) Hs) as Hv.
    destruct (visitVersion w node s) as [s' | r]; [| exact Hv].
    apply IH; [| exact Hv]. intros n Hn. apply Hret. right. exact Hn.
Qed.

Lemma afterVersionsLoop_justified w query s :
  Forall (staleLineJustified w) (trace s) ->
  match afterVersionsLoop query s with
  | Continue s' => Forall (staleLineJustified w) (trace s')
  | Stop r => Forall (staleLineJustified w) (events r)
  end.
Proof.
  intros Hs. unfold afterVersionsLoop. destruct (negb _).
  - unfold publish. simpl. apply Forall_app. split; [exact Hs |].
    repeat constructor.
  - exact Hs.
Qed.

Lemma iteration_justified w s :
  Forall (staleLineJustified w) (trace s) ->
  match iteration w s with
  | Continue s' => Forall (staleLineJustified w) (trace s')
  | Stop r => Forall (staleLineJustified w) (events r)
  end.
Proof.
  intros Hs. unfold iteration.
  destruct (Answer w (queryCalls s) (variables s)) as [err | query] eqn:Ha.
  { simpl. apply Forall_snoc; [exact Hs | exact I]. }
  assert (Hsent : Forall (staleLineJustified w) (trace (sent s None)))
    by (apply Forall_snoc; [exact Hs | exact I]).
  destruct (PackageNodes (Packages query)) as [|pkg others] eqn:Hn.
  - apply afterVersionsLoop_justified. exact Hsent.
  - match goal with
    | |- context [rangeVersions w ?ns ?s0] =>
        pose proof (rangeVersions_justified w ns s0) as Hr;
        destruct (rangeVersions w ns s0) as [s' | r]
    end.
    + assert (Hs' : Forall (staleLineJustified w) (trace s')).
      { apply Hr.
        - intros node Hin.
          exists (queryCalls s), (variables s), query, pkg, others. auto.
        - apply Forall_snoc; [exact Hsent | exact I]. }
      destruct (negb _).
      * apply afterVersionsLoop_justified. exact Hs'.
      * exact Hs'.
    + apply Hr.
      * intros node Hin.
        exists (queryCalls s), (variables s), query, pkg, others. auto.
      * apply Forall_snoc; [exact Hsent | exact I].
Qed.

Lemma loop_justified fuel w s r :
  Forall (staleLineJustified w) (trace s) ->
  loop fuel w s = Some r ->
  Forall (staleLineJustified w) (events r).
Proof.
  revert s. induction fuel as [|fuel IH]; intros s Hs H; simpl in H.
  - discriminate.
  - pose proof (iteration_justified w s Hs) as Hit.
    destruct (iteration w s) as [s' | r'].
    + eapply IH; eassumption.
    + injection H as <-. exact Hit.
Qed.

Lemma staleLogged_In es id :
  In id (staleLogged es) ->
  exists tag t, In (EvStale (IDString id) tag t) es.
Proof.
  induction es as [|e es IH]; simpl; [contradiction |].
  intros Hin. apply in_app_or in Hin as [Hin | Hin].
  - destruct e as [| | | [i |] tag t | | |]; simpl in Hin; try contradiction.
    destruct Hin as [-> | []]. exists tag, t. left. reflexivity.
  - destruct (IH Hin) as (tag & t & H). exists tag, t. right. exact H.
Qed.

(** X5: in every finished run, each "Stale version" line is for a version
    node that the API returned under the first package node of a response,
    with a string identifier, a first file, a tag that is not protected,
    and a timestamp strictly more than seven days before some reading of
    the clock; and every identifier of the stale set has such a line. *)
Theorem stale_lines_are_borne_out_by_the_responses :
  forall fuel w r,
    main fuel w = Some r ->
    Forall (staleLineJustified w) (events r) /\
    (forall id, In id (staleLogged (events r)) ->
                exists tag t,
                  In (EvStale (IDString id) tag t) (events r) /\
                  staleLineJustified w (EvStale (IDString id) tag t)).
Proof.
  intros fuel w r Hrun.
  assert (Hall : Forall (staleLineJustified w) (events r)).
  { apply main_cases in Hrun as [[Hnil _] | (owner & name & Hloop)].
    - rewrite Hnil. constructor.
    - eapply loop_justified; [| exact Hloop]. constructor. }
  split; [exact Hall |].
  intros id Hin. apply staleLogged_In in Hin as (tag & t & Hin).
  exists tag, t. split; [exact Hin |].
  rewrite Forall_forall in Hall. exact (Hall _ Hin).
Qed.

Lemma stale_lines_are_borne_out_by_the_responses_witness :
  exists r,
    main 3 (pagedWorld 1 twoPackages thirtyDaysLater) = Some r /\
    Forall (staleLineJustified (pagedWorld 1 twoPackages thirtyDaysLater))
           (events r).
Proof.
  eexists. split; [vm_compute; reflexivity |].
  apply (stale_lines_are_borne_out_by_the_responses
           3 (pagedWorld 1 twoPackages thirtyDaysLater)).
  vm_compute. reflexivity.
Defined.

(** ** The log lines of a page, and the identifier that is no string *)

Lemma visitVersion_line w node s :
  match visitVersion w node s with
  | Continue s' => exists e, trace s' = (trace s ++ [e])%list /\ lineFor e node
  | Stop r =>
      events r = trace s /\ exit r = PanicInterfaceConversion /\
      VersionID node = IDOther
  end.
Proof.
  unfold visitVersion.
  destruct (Files node) as [|file rest] eqn:Hf.
  { eexists. split; [reflexivity |]. simpl. auto. }
  destruct (matchVersion (Version node)).
  - destruct (time.Before _ _).
    + destruct (VersionID node) as [id |] eqn:Hid.
      * eexists. split; [reflexivity |]. simpl. rewrite Hf. eauto 6.
      * simpl. auto.
    + eexists. split; [reflexivity |]. simpl. rewrite Hf. eauto 6.
  - eexists. split; [reflexivity |]. simpl. rewrite Hf. eauto 6.
Qed.

(** X6: the range loop logs one line for every version node of the page,
    in the order of the nodes and with the identifier and the tag of the
    node: "No files" for a node without files, "Stale version" or "Skip
    version" with the timestamp of the first file otherwise.  If the loop
    panics, the lines are those of the nodes before the one with the
    identifier that is not a string. *)
Theorem every_version_of_a_page_is_logged_once_in_order :
  forall w nodes s,
    match rangeVersions w nodes s with
    | Continue s' =>
        exists es, trace s' = (trace s ++ es)%list /\ Forall2 lineFor es nodes
    | Stop r =>
        exists es node,
          events r = (trace s ++ es)%list /\
          exit r = PanicInterfaceConversion /\
          Forall2 lineFor es (firstn (List.length es) nodes) /\
          nth_error nodes (List.length es) = Some node /\
          VersionID node = IDOther
    end.
Proof.
  intros w nodes. induction nodes as [|node rest IH]; intros s; simpl.
  - exists []. rewrite app_nil_r. split; [reflexivity | constructor].
  - pose proof (visitVersion_line w node s) as Hv.
    destruct (visitVersion w node s) as [s1 | r].
    + destruct Hv as (e & Ht & He).
      specialize (IH s1).
      destruct (rangeVersions w rest s1) as [s2 | r].
      * destruct IH as (es & Ht2 & Hes).
        exists (e :: es). split.
        -- rewrite Ht2, Ht, <- app_assoc. reflexivity.
        -- constructor; assumption.
      * destruct IH as (es & bad & Hev & Hex & Hes & Hnth & Hid).
        exists (e :: es), bad. simpl.
        split; [rewrite Hev, Ht, <- app_assoc; reflexivity |].
        split; [exact Hex |].
        split; [constructor; assumption |].
        split; assumption.
    + destruct Hv as (Hev & Hex & Hid).
      exists [], node. simpl. rewrite app_nil_r.
      split; [exact Hev |]. split; [exact Hex |].
      split; [constructor |]. split; [reflexivity | exact Hid].
Qed.

(** X7: the visit of a version panics exactly when the identifier of the
    node is not a string and the version is stale (it has a file, its tag
    is unprotected and the file is older than [packageTTL]); the panic is
    the failed type assertion, with nothing logged for the node.  An
    identifier that is not a string does no harm on a version that is
    retained or has no files. *)
Theorem visit_panics_iff_stale_version_has_no_string_identifier :
  forall w node s,
    ((exists r, visitVersion w node s = Stop r) <->
     (VersionID node = IDOther /\
      staleAt (Now w (clockReads s)) node = true)) /\
    (forall r, visitVersion w node s = Stop r ->
               exit r = PanicInterfaceConversion /\ events r = trace s).
Proof.
  intros w node s. unfold visitVersion, staleAt.
  destruct (Files node) as [|file rest].
  { split; [split |].
    - intros (r & H). discriminate H.
    - intros (_ & H). discriminate H.
    - intros r H. discriminate H. }
  destruct (matchVersion (Version node)); simpl.
  - destruct (time.Before _ _).
    + destruct (VersionID node) as [id |].
      * split; [split |].
        -- intros (r & H). discriminate H.
        -- intros (H & _). discriminate H.
        -- intros r H. discriminate H.
      * split; [split |].
        -- auto.
        -- intros _. eexists. reflexivity.
        -- intros r H. injection H as <-. auto.
    + split; [split |].
      * intros (r & H). discriminate H.
      * intros (_ & H). discriminate H.
      * intros r H. discriminate H.
  - split; [split |].
    + intros (r & H). discriminate H.
    + intros (_ & H). discriminate H.
    + intros r H. discriminate H.
Qed.

Lemma visit_panics_iff_stale_version_has_no_string_identifier_witness :
  exists r,
    visitVersion (pagedWorld 1 [] thirtyDaysLater)
      {| VersionID := IDOther; Version := "pr-42";
         Files := [ {| UpdatedAt := 0%Z |} ] |}
      (initialState "owner" "name") = Stop r.
Proof.
  destruct (visit_panics_iff_stale_version_has_no_string_identifier
              (pagedWorld 1 [] thirtyDaysLater)
              {| VersionID := IDOther; Version := "pr-42";
                 Files := [ {| UpdatedAt := 0%Z |} ] |}
              (initialState "owner" "name")) as ((_ & Hpanic) & _).
  apply Hpanic. split; reflexivity.
Defined.

(** ** What is published, and when *)

(** X8: a finished run has called [SetEnv] if and only if [main]
    returned; a run that ends in [Fatalf] or in a panic, at start-up or
    in the loops, publishes nothing, and no run publishes more than
    once. *)
Theorem publishes_iff_main_returns :
  forall fuel w r,
    main fuel w = Some r ->
    (published (events r) <> [] <-> exit r = Returned) /\
    (List.length (published (events r)) <= 1)%nat.
Proof.
  intros fuel w r Hrun.
  apply main_Outcome in Hrun as [[Hnil Hstart] | Hout].
  - rewrite Hnil. simpl. split; [| lia]. split; [congruence |].
    intros Hret. destruct Hstart as [H | [H | (i & n & H)]];
      rewrite H in Hret; discriminate.
  - destruct Hout as [base v err Hev Hex _ Hp | base Hev Hex _ Hp | Hex _ Hp].
    + rewrite Hev, published_app, Hp, Hex. simpl.
      split; [| lia]. split; [congruence | discriminate].
    + rewrite Hev, published_app, Hp, Hex. simpl.
      split; [| lia]. split; [reflexivity | discriminate].
    + rewrite Hp, Hex. simpl.
      split; [| lia]. split; [congruence | discriminate].
Qed.

Lemma publishes_iff_main_returns_witness :
  exists r,
    main 3 (pagedWorld 1 twoPackages thirtyDaysLater) = Some r /\
    published (events r) <> [].
Proof.
  eexists. split; [vm_compute; reflexivity |].
  match goal with
  | |- published (events ?run) <> [] =>
      assert (Hrun : main 3 (pagedWorld 1 twoPackages thirtyDaysLater)
                     = Some run) by (vm_compute; reflexivity);
      destruct (publishes_iff_main_returns _ _ _ Hrun) as (Hiff & _)
  end.
  apply Hiff. reflexivity.
Defined.

(** ** The owner and the name in the queries *)

Lemma append_empty a : a ++ "" = a.
Proof.
  induction a as [|c a IH]; simpl; [reflexivity | rewrite IH; reflexivity].
Qed.

Lemma Split_first_segment a b sep :
  ~ In sep (list_ascii_of_string a) ->
  strings.Split (a ++ String sep b) sep = a :: strings.Split b sep.
Proof.
  induction a as [|c a IH]; intros Hno.
  - simpl. rewrite Ascii.eqb_refl. reflexivity.
  - simpl. destruct (Ascii.eqb_spec c sep) as [-> | Hne].
    + exfalso. apply Hno. left. reflexivity.
    + rewrite IH; [reflexivity |].
      intros Hin. apply Hno. right. exact Hin.
Qed.

Lemma Split_two_segments owner name tail :
  ~ In "/"%char (list_ascii_of_string owner) ->
  ~ In "/"%char (list_ascii_of_string name) ->
  tail = "" \/ (exists t, tail = String "/" t) ->
  exists more,
    strings.Split (owner ++ String "/" (name ++ tail)) "/" =
      owner :: name :: more.
Proof.
  intros Ho Hn Ht. rewrite (Split_first_segment owner _ _ Ho).
  destruct Ht as [-> | (t & ->)].
  - exists []. f_equal. rewrite append_empty.
    apply Split_without_separator. exact Hn.
  - rewrite (Split_first_segment name _ _ Hn). eauto.
Qed.

Lemma loop_queries (P : Variables -> Prop) fuel w :
  (forall s c, P (variables s) -> P (variables (setPackagesCursor s c))) ->
  (forall s c, P (variables s) -> P (variables (setVersionsCursor s c))) ->
  forall s r,
    P (variables s) ->
    Forall P (queriesOf (trace s)) ->
    loop fuel w s = Some r ->
    Forall P (queriesOf (events r)).
Proof.
  intros Hpc Hvc. induction fuel as [|fuel IH]; intros s r Hs Ht H;
    simpl in H; [discriminate |].
  destruct (iteration_extends w s) as (err & es & Hext & Hes).
  assert (Hnew : Forall P (queriesOf
                   (trace s ++ EvQuery (variables s) err :: es))).
  { rewrite queriesOf_app. apply Forall_app. split; [exact Ht |].
    simpl. rewrite Hes. constructor; [exact Hs | constructor]. }
  destruct (iteration w s) as [s' | r'] eqn:Hit.
  - apply (IH s' r); [| rewrite Hext; exact Hnew | exact H].
    apply iteration_continues in Hit
      as (query & _ & _ & [(_ & _ & _ & Hv) | [Hv | Hv]]).
    + rewrite Hv. apply Hpc. exact Hs.
    + destruct Hv as (pkg & others & _ & _ & _ & Hv).
      rewrite Hv. apply Hpc. exact Hs.
    + destruct Hv as (pkg & others & _ & _ & Hv).
      rewrite Hv. apply Hvc. exact Hs.
  - injection H as <-. rewrite Hext. exact Hnew.
Qed.

(** X9: when [GITHUB_REPOSITORY] is [owner/name], or [owner/name/...]
    with anything after a further slash, every query of the run is sent
    with that owner and that name; what follows a second slash is
    dropped. *)
Theorem every_query_carries_the_first_two_segments :
  forall fuel w r owner name tail,
    Getenv w "GITHUB_REPOSITORY" = owner ++ String "/" (name ++ tail) ->
    ~ In "/"%char (list_ascii_of_string owner) ->
    ~ In "/"%char (list_ascii_of_string name) ->
    tail = "" \/ (exists t, tail = String "/" t) ->
    main fuel w = Some r ->
    Forall (fun v => repositoryOwner v = owner /\ repositoryName v = name)
           (queriesOf (events r)).
Proof.
  intros fuel w r owner name tail Hrepo Ho Hn Ht Hrun.
  unfold main in Hrun.
  destruct (String.eqb (Getenv w "ROBOT_TOKEN") "").
  { injection Hrun as <-. constructor. }
  destruct (String.eqb (Getenv w "GITHUB_REPOSITORY") "").
  { injection Hrun as <-. constructor. }
  rewrite Hrepo in Hrun.
  destruct (Split_two_segments owner name tail Ho Hn Ht) as (more & Hsplit).
  rewrite Hsplit in Hrun. simpl nth_error in Hrun.
  revert Hrun. apply loop_queries.
  - intros s c H. exact H.
  - intros s c H. exact H.
  - simpl. auto.
  - constructor.
Qed.

Lemma every_query_carries_the_first_two_segments_witness :
  exists r,
    main 3 (pagedWorld 1 twoPackages thirtyDaysLater) = Some r /\
    Forall (fun v => repositoryOwner v = "percona-platform" /\
                     repositoryName v = "demo")
           (queriesOf (events r)).
Proof.
  eexists. split; [vm_compute; reflexivity |].
  apply (every_query_carries_the_first_two_segments
           3 (pagedWorld 1 twoPackages thirtyDaysLater) _
           "percona-platform" "demo" "").
  - reflexivity.
  - simpl. intuition discriminate.
  - simpl. intuition discriminate.
  - left. reflexivity.
  - vm_compute. reflexivity.
Defined.

(** ** A pagination that never ends *)

Lemma rangeVersions_continues w nodes s :
  Forall hasStringID nodes ->
  exists s', rangeVersions w nodes s = Continue s'.
Proof.
  intros Hall. revert s. induction Hall as [|node rest Hnode _ IH];
    intros s; simpl.
  - eauto.
  - pose proof (visitVersion_line w node s) as Hv.
    destruct (visitVersion w node s) as [s1 | r].
    + apply IH.
    + destruct Hv as (_ & _ & Hid). destruct Hnode as (id & Hnode).
      congruence.
Qed.

Lemma rangeVersions_stops w nodes s :
  match rangeVersions w nodes s with
  | Continue _ => True
  | Stop r => exit r = PanicInterfaceConversion
  end.
Proof.
  revert s. induction nodes as [|node rest IH]; intros s; simpl; [exact I |].
  pose proof (visitVersion_line w node s) as Hv.
  destruct (visitVersion w node s) as [s1 | r]; [apply IH | apply Hv].
Qed.

(** A turn against such an API goes on, or panics on an identifier that
    is not a string. *)
Lemma iteration_alwaysAnotherPage w s :
  alwaysAnotherPage w ->
  (exists s', iteration w s = Continue s') \/
  (exists r, iteration w s = Stop r /\ exit r = PanicInterfaceConversion).
Proof.
  intros Hw. destruct (Hw (queryCalls s) (variables s)) as (q & Ha & Hq).
  unfold iteration. rewrite Ha.
  destruct (PackageNodes (Packages q)) as [|pkg others].
  - unfold afterVersionsLoop. rewrite Hq. simpl. eauto.
  - pose proof (rangeVersions_stops w (VersionNodes (Versions pkg))
                  (emit (sent s None) (EvInspecting (PackageID pkg) (Name pkg))))
      as Hr.
    destruct (rangeVersions w _ _) as [s1 | r].
    + rewrite Hq. simpl. eauto.
    + right. exists r. split; [reflexivity | apply Hr].
Qed.

Lemma iteration_alwaysAnotherPage_strings w s :
  alwaysAnotherPage w -> stringIdentifiers w ->
  exists s', iteration w s = Continue s'.
Proof.
  intros Hw Hids. destruct (Hw (queryCalls s) (variables s)) as (q & Ha & Hq).
  unfold iteration. rewrite Ha.
  destruct (PackageNodes (Packages q)) as [|pkg others] eqn:Hnodes.
  - unfold afterVersionsLoop. rewrite Hq. simpl. eauto.
  - destruct (rangeVersions_continues w (VersionNodes (Versions pkg))
                (emit (sent s None) (EvInspecting (PackageID pkg) (Name pkg)))
                (Hids _ _ _ _ _ Ha Hnodes)) as (s1 & Hr).
    rewrite Hr, Hq. simpl. eauto.
Qed.

(** X10: the loops have no bound of their own and do not look at whether
    a cursor moves.  Against an API that announces a further page with
    every answer the run never returns, never fails on a query and never
    publishes: it can end only by failing at start-up, or by the panic of
    the type assertion on a stale version whose identifier is not a
    string.  If moreover every version identifier is a string, the loops
    go on sending queries for ever, and the run ends only if it fails at
    start-up. *)
Theorem run_never_ends_while_every_page_announces_another :
  forall w,
    alwaysAnotherPage w ->
    (forall fuel s r,
        loop fuel w s = Some r -> exit r = PanicInterfaceConversion) /\
    (forall fuel r,
        main fuel w = Some r ->
        startupFailure r \/
        (exit r = PanicInterfaceConversion /\ published (events r) = [])) /\
    (stringIdentifiers w ->
     (forall fuel s, loop fuel w s = None) /\
     (forall fuel r, main fuel w = Some r -> startupFailure r)).
Proof.
  intros w Hw.
  assert (Hpanic : forall fuel s r,
             loop fuel w s = Some r -> exit r = PanicInterfaceConversion).
  { induction fuel as [|fuel IH]; intros s r; simpl; [discriminate |].
    destruct (iteration_alwaysAnotherPage w s Hw)
      as [(s' & Hit) | (r' & Hit & Hex)]; rewrite Hit.
    - apply IH.
    - intros H; injection H as <-. exact Hex. }
  split; [exact Hpanic |]. split.
  - intros fuel r Hrun.
    pose proof (main_Outcome _ _ _ Hrun) as Hout.
    apply main_cases in Hrun as [H | (owner & name & H)]; [left; exact H |].
    right. apply Hpanic in H. split; [exact H |].
    destruct Hout as [(Hev & _) | Hout]; [rewrite Hev; reflexivity |].
    destruct Hout as [base v' err' Hev Hex Hq Hp | base Hev Hex Hq Hp
                     | Hex Hq Hp]; try congruence.
  - intros Hids.
    assert (Hloop : forall fuel s, loop fuel w s = None).
    { induction fuel as [|fuel IH]; intros s; simpl; [reflexivity |].
      destruct (iteration_alwaysAnotherPage_strings w s Hw Hids) as (s' & Hit).
      rewrite Hit. apply IH. }
    split; [exact Hloop |].
    intros fuel r Hrun.
    apply main_cases in Hrun as [H | (owner & name & H)]; [exact H |].
    rewrite Hloop in H. discriminate.
Qed.

Lemma run_never_ends_while_every_page_announces_another_witness :
  main 1000 stuckServer = None /\
  exists r,
    main 1000 stuckServerOtherID = Some r /\
    exit r = PanicInterfaceConversion /\ published (events r) = [].
Proof.
  split.
  - assert (Hstuck : alwaysAnotherPage stuckServer).
    { intros n v. eexists. split; [reflexivity |]. reflexivity. }
    assert (Hids : stringIdentifiers stuckServer).
    { intros n v q pkg others Ha Hnodes. simpl in Ha. injection Ha as <-.
      simpl in Hnodes. injection Hnodes as <- _. constructor. }
    destruct (run_never_ends_while_every_page_announces_another
                stuckServer Hstuck) as (_ & _ & Hrest).
    destruct (Hrest Hids) as (Hloop & _).
    change (main 1000 stuckServer)
      with (loop 1000 stuckServer (initialState "percona-platform" "demo")).
    apply Hloop.
  - assert (Hstuck : alwaysAnotherPage stuckServerOtherID).
    { intros n v. eexists. split; [reflexivity |]. reflexivity. }
    destruct (run_never_ends_while_every_page_announces_another
                stuckServerOtherID Hstuck) as (_ & Hmain & _).
    eexists. split; [vm_compute; reflexivity |].
    match goal with
    | |- exit ?run = _ /\ _ =>
        assert (Hrun : main 1000 stuckServerOtherID = Some run)
          by (vm_compute; reflexivity)
    end.
    destruct (Hmain _ _ Hrun) as [(Hev & _) | Hpanic];
      [discriminate Hev | exact Hpanic].
Defined.

(** ** What the run reaches on the paginating server, in general *)

Section PagedAny.

Variable pageSize : nat.
Variable data : list PackageData.
Variable now : time.Time.
Hypothesis pageSize_positive : (0 < pageSize)%nat.

Let w : World := pagedWorld pageSize data now.



End PagedAny.

Lemma finalOffset_one_page fuel pageSize len :
  (len <= pageSize)%nat -> finalOffset fuel pageSize 0 len = 0.
Proof.
  intros Hlen. destruct fuel as [|fuel]; [reflexivity |].
  cbn [finalOffset].
  assert (Hlt : (pageSize <? len - 0)%nat = false)
    by (apply Nat.ltb_ge; lia).
  rewrite Hlt. reflexivity.
Qed.

(** Where every package but the last has its versions on one page, the
    run reaches all versions. *)
Lemma visitedVersions_onePageButLast pageSize data :
  onePageButLast pageSize data ->
  visitedVersions pageSize 0 data = allVersions data.
Proof.
  induction data as [|d rest IH]; intros Hone; [reflexivity |].
  simpl. unfold allVersions. simpl. f_equal.
  destruct rest as [|d' rest]; [reflexivity |].
  destruct Hone as [Hlen Hone].
  rewrite (finalOffset_one_page _ pageSize _ Hlen). apply IH. exact Hone.
Qed.



(** ** [PackagePreview.RoundTrip] *)

Lemma lookup_store m key vs key' :
  http.lookup (http.store m key vs) key' =
    if String.eqb key key' then vs else http.lookup m key'.
Proof.
  induction m as [|[k old] rest IH]; simpl.
  - rewrite String.eqb_sym. destruct (String.eqb key' key); reflexivity.
  - destruct (String.eqb_spec k key) as [-> | Hne]; simpl.
    + destruct (String.eqb key key'); reflexivity.
    + destruct (String.eqb_spec k key') as [-> | Hne'].
      * apply String.eqb_neq in Hne. rewrite String.eqb_sym in Hne.
        rewrite Hne. reflexivity.
      * exact IH.
Qed.

Lemma Add_Values h key value :
  h <> None ->
  exists h',
    http.Add h key value = Some h' /\ h' <> None /\
    forall key',
      http.Values h' key' =
        if String.eqb key key'
        then (http.Values h key' ++ [value])%list
        else http.Values h key'.
Proof.
  destruct h as [m |]; [| congruence]. intros _.
  eexists. split; [reflexivity |]. split; [discriminate |].
  intros key'. simpl. rewrite lookup_store.
  destruct (String.eqb_spec key key') as [-> | _]; reflexivity.
Qed.

(** X12: [RoundTrip] hands the wrapped transport the request with the
    packages-preview media type appended to the values of [Accept] (the
    values that were there stay, in front of it), with every other header
    and every other field as it was, and returns what the wrapped
    transport returns; [n] such layers append the value [n] times.  On a
    request whose header map is [nil] it panics, and the wrapped transport
    is not called. *)
Theorem RoundTrip_appends_the_preview_media_type :
  forall (Other Response : Type)
         (T : http.Request Other -> http.Result Response)
         (n : nat) (req : http.Request Other),
    (http.RequestHeader req <> None ->
     exists req',
       previewLayers n T req = T req' /\
       http.RequestHeader req' <> None /\
       http.Values (http.RequestHeader req') "Accept" =
         (http.Values (http.RequestHeader req) "Accept" ++
          repeat "application/vnd.github.packages-preview+json" n)%list /\
       (forall key, key <> "Accept" ->
                    http.Values (http.RequestHeader req') key =
                    http.Values (http.RequestHeader req) key) /\
       http.RequestOther req' = http.RequestOther req)
    /\
    (http.RequestHeader req = None ->
     previewLayers (S n) T req = http.Panics).
Proof.
  intros Other Response T n req. split.
  - revert req. induction n as [|n IH]; intros req Hh.
    + exists req. simpl. rewrite app_nil_r. auto.
    + destruct (Add_Values (http.RequestHeader req) "Accept"
                  "application/vnd.github.packages-preview+json" Hh)
        as (h1 & Hadd & Hh1 & Hvals).
      destruct (IH {| http.RequestHeader := h1;
                      http.RequestOther := http.RequestOther req |} Hh1)
        as (req' & Hrun & Hh' & Haccept & Hkeys & Hother).
      exists req'. cbn [previewLayers]. unfold RoundTrip. rewrite Hadd.
      split; [exact Hrun |]. split; [exact Hh' |].
      cbn [http.RequestHeader http.RequestOther] in Haccept, Hkeys, Hother.
      split.
      { rewrite Haccept, (Hvals "Accept"), String.eqb_refl.
        rewrite <- app_assoc. reflexivity. }
      split; [| exact Hother].
      intros key Hkey. rewrite (Hkeys key Hkey), (Hvals key).
      apply not_eq_sym in Hkey. apply String.eqb_neq in Hkey.
      rewrite Hkey. reflexivity.
  - intros Hnil. cbn [previewLayers]. unfold RoundTrip. rewrite Hnil.
    reflexivity.
Qed.

Lemma RoundTrip_appends_the_preview_media_type_witness :
  exists req' : http.Request string,
    RoundTrip (fun req : http.Request string =>
                 http.Returns (Some (http.Values (http.RequestHeader req)
                                                 "Accept")) None)
              {| http.RequestHeader :=
                   Some [("Accept", ["application/json"])];
                 http.RequestOther := "POST /graphql" |}
      = http.Returns (Some (http.Values (http.RequestHeader req') "Accept"))
                     None /\
    http.Values (http.RequestHeader req') "Accept" =
      ["application/json"; "application/vnd.github.packages-preview+json"].
Proof.
  destruct (RoundTrip_appends_the_preview_media_type
              string (list string)
              (fun req : http.Request string =>
                 http.Returns (Some (http.Values (http.RequestHeader req)
                                                 "Accept")) None)
              1
              {| http.RequestHeader :=
                   Some [("Accept", ["application/json"])];
                 http.RequestOther := "POST /graphql" |})
    as (Hsome & _).
  destruct Hsome as (req' & Hrun & _ & Haccept & _).
  - discriminate.
  - exists req'. split; [exact Hrun | exact Haccept].
Defined.

(** ** The empty value *)

Lemma Join_empty_iff ids sep :
  Forall (fun id => id <> "") ids ->
  (strings.Join ids sep = "" <-> ids = []).
Proof.
  intros Hall. split; [| intros ->; reflexivity].
  destruct Hall as [|id rest Hid _]; [reflexivity |].
  intros H. exfalso. simpl in H.
  destruct id as [|c id]; [apply Hid; reflexivity |].
  destruct rest; discriminate H.
Qed.

(** ** The published value *)

Lemma Join_commaSpaceSeparated ids :
  strings.Join ids ", " = commaSpaceSeparated ids.
Proof.
  destruct ids as [|id rest]; [reflexivity |].
  revert id. induction rest as [|next rest IH]; intros id.
  - symmetry. apply append_empty.
  - change (strings.Join (id :: next :: rest) ", ")
      with (id ++ ", " ++ strings.Join (next :: rest) ", ").
    rewrite IH. reflexivity.
Qed.

Lemma commaSpaceSeparated_empty_iff ids :
  Forall (fun id => id <> "") ids ->
  (commaSpaceSeparated ids = "" <-> ids = []).
Proof.
  rewrite <- Join_commaSpaceSeparated. apply Join_empty_iff.
Qed.

(** A turn that ends in a return from [main] leaves the loops in a state
    that it hands to lines 137 to 139. *)
Lemma iteration_returns w s0 r :
  Reachable w s0 -> Inv s0 ->
  iteration w s0 = Stop r -> exit r = Returned ->
  exists s, leavesLoops w s /\ Inv s /\ r = publish s.
Proof.
  intros Hreach HI Hit Hret. unfold iteration in Hit.
  destruct (Answer w (queryCalls s0) (variables s0)) as [err | query] eqn:Ha.
  { injection Hit as <-. discriminate Hret. }
  destruct (PackageNodes (Packages query)) as [|pkg others] eqn:Hnodes.
  - unfold afterVersionsLoop in Hit.
    destruct (HasNextPage (PackagesPageInfo (Packages query))) eqn:Hmore;
      simpl in Hit; [discriminate |].
    injection Hit as <-. exists (sent s0 None).
    split; [| split; [apply Inv_sent; exact HI | reflexivity]].
    exists s0, query. rewrite Hnodes. auto.
  - pose proof (rangeVersions_stops w (VersionNodes (Versions pkg))
                  (emit (sent s0 None)
                        (EvInspecting (PackageID pkg) (Name pkg)))) as Hstop.
    pose proof (rangeVersions_Inv w (VersionNodes (Versions pkg))
                  (emit (sent s0 None)
                        (EvInspecting (PackageID pkg) (Name pkg)))) as HIr.
    destruct (rangeVersions w _ _) as [s1 | r1] eqn:Hrange.
    2: { injection Hit as <-. rewrite Hstop in Hret. discriminate. }
    destruct (HasNextPage (VersionsPageInfo (Versions pkg))) eqn:Hv;
      simpl in Hit; [discriminate |].
    unfold afterVersionsLoop in Hit.
    destruct (HasNextPage (PackagesPageInfo (Packages query))) eqn:Hmore;
      simpl in Hit; [discriminate |].
    injection Hit as <-. exists s1.
    split; [| split; [| reflexivity]].
    + exists s0, query. rewrite Hnodes. auto.
    + apply HIr. apply Inv_emit; [apply Inv_sent; exact HI | reflexivity ..].
Qed.

Lemma loop_returns fuel w :
  forall s0 r,
    Reachable w s0 -> Inv s0 ->
    loop fuel w s0 = Some r -> exit r = Returned ->
    exists s, leavesLoops w s /\ Inv s /\ r = publish s.
Proof.
  induction fuel as [|fuel IH]; intros s0 r Hreach HI Hloop Hret;
    simpl in Hloop; [discriminate |].
  pose proof (iteration_Inv w s0 HI) as HI'.
  destruct (iteration w s0) as [s' | r'] eqn:Hit.
  - apply (IH s' r); auto. eapply reach_turn; eassumption.
  - injection Hloop as ->. eapply iteration_returns; eassumption.
Qed.

(** A run that returns has left the loops in a state that satisfies the
    invariant, and ends with what lines 137 to 139 make of that state. *)
Lemma main_returns fuel w r :
  main fuel w = Some r -> exit r = Returned ->
  exists s, leavesLoops w s /\ Inv s /\ r = publish s.
Proof.
  intros Hrun Hret.
  apply main_cases in Hrun as [(_ & Hstart) | (owner & name & Hloop)].
  { exfalso. destruct Hstart as [H | [H | (i & n & H)]];
      rewrite H in Hret; discriminate. }
  eapply loop_returns; [apply reach_start | apply Inv_initialState | | ];
    eassumption.
Qed.

Lemma app_two_inj {A} (l l' : list A) a b a' b' :
  (l ++ [a; b] = l' ++ [a'; b'])%list -> l = l' /\ a = a' /\ b = b'.
Proof.
  intros H.
  change (l ++ [a; b])%list with (l ++ [a] ++ [b])%list in H.
  change (l' ++ [a'; b'])%list with (l' ++ [a'] ++ [b'])%list in H.
  rewrite !app_assoc in H.
  apply app_inj_tail in H as (H & Hb).
  apply app_inj_tail in H as (H & Ha). auto.
Qed.



(** ** The empty value *)

(** X13: a run that returns publishes the empty string if its stale set,
    the [versions] of the state in which it left the loops, is empty; and
    when no identifier of the stale set is the empty string, only then.
    So a consumer that tests [STALE_VERSIONS] for emptiness tests the
    stale set. *)
Theorem published_value_is_empty_iff_nothing_is_stale :
  forall fuel w r,
    main fuel w = Some r ->
    exit r = Returned ->
    exists s value,
      leavesLoops w s /\
      versions s = staleLogged (trace s) /\
      published (trace s) = [] /\
      events r =
        (trace s ++
         [EvSetting value; EvSetEnv "STALE_VERSIONS" value])%list /\
      (versions s = [] -> value = "") /\
      (Forall (fun id => id <> "") (versions s) ->
       value = "" -> versions s = []).
Proof.
  intros fuel w r Hrun Hret.
  destruct (main_returns fuel w r Hrun Hret) as (s & Hleft & HI & ->).
  destruct HI as (Hq & Hp & Hv).
  exists s, (strings.Join (versions s) ", ").
  split; [exact Hleft |]. split; [exact Hv |]. split; [exact Hp |].
  split; [reflexivity |]. split.
  - intros ->. reflexivity.
  - intros Hids. apply Join_empty_iff. exact Hids.
Qed.

Lemma published_value_is_empty_iff_nothing_is_stale_witness :
  (exists r,
      main 1 (pagedWorld 100 [] thirtyDaysLater) = Some r /\
      published (events r) = [("STALE_VERSIONS", "")]) /\
  (exists r s value,
      main 2 (pagedWorld 100 twoPackages thirtyDaysLater) = Some r /\
      published (events r) = [("STALE_VERSIONS", value)] /\
      versions s = ["A1"; "A2"; "B1"] /\
      value <> "").
Proof.
  split.
  - eexists.
    match goal with
    | |- main 1 ?W = Some ?run /\ _ =>
        assert (Hrun : main 1 W = Some run) by (vm_compute; reflexivity);
        destruct (published_value_is_empty_iff_nothing_is_stale 1 W run Hrun
                    eq_refl)
          as (s & value & _ & Hv & _ & Hev & Hempty & _)
    end.
    split; [exact Hrun |].
    cbn [events] in Hev.
    change ([EvQuery ?v None; ?a; ?b])
      with ([EvQuery v None] ++ [a; b])%list in Hev.
    apply app_two_inj in Hev as (Htrace & Hval & _).
    rewrite <- Htrace in Hv. injection Hval as Hval.
    reflexivity.
  - eexists.
    match goal with
    | |- exists s value, main 2 ?W = Some ?run /\ _ =>
        assert (Hrun : main 2 W = Some run) by (vm_compute; reflexivity);
        destruct (published_value_is_empty_iff_nothing_is_stale 2 W run Hrun
                    eq_refl)
          as (s & value & _ & Hv & _ & Hev & _ & Honly)
    end.
    exists s, value. split; [exact Hrun |].
    cbn [events] in Hev.
    match type of Hev with
    | ?l = _ =>
        change l with (removelast (removelast l) ++
                       [nth 7 l (EvSetting "");
                        nth 8 l (EvSetting "")])%list in Hev
    end.
    apply app_two_inj in Hev as (Htrace & Hval & _).
    rewrite <- Htrace in Hv.
    assert (Hvs : versions s = ["A1"; "A2"; "B1"])
      by (rewrite Hv; vm_compute; reflexivity).
    split; [| split; [exact Hvs |]].
    + cbn [nth] in Hval. injection Hval as <-. reflexivity.
    + intros Hnone. rewrite Hvs in Honly.
      assert (H : ["A1"; "A2"; "B1"] = @nil string);
        [apply Honly; [| exact Hnone] | discriminate H].
      repeat constructor; discriminate.
Defined.
